(** * electric-translator: the job orchestration core

    A shallow embedding of [api/helpers.py], [api/crud.py], [api/tasks.py],
    [api/tasks_async.py] and [api/main.py], and the properties of the
    chunker, the sub-job worker, the orchestrator and the retry loop. *)

From Stdlib Require Import ZArith Ascii String.
From stdpp Require Import base tactics relations list strings.

Local Open Scope string_scope.
Local Open Scope list_scope.

(** ** Python built-ins used by the code *)

(** [sep.join(l)] *)
Definition join (sep : string) (l : list string) : string := String.concat sep l.

(** [s.split(sep)] for a one-character separator: the pieces between the
    occurrences of [sep]; a string without [sep] is its own single piece
    (also the empty string). *)
Fixpoint split (sep : ascii) (s : string) : list string :=
  match s with
  | EmptyString => [EmptyString]
  | String c s' =>
      if Ascii.eqb c sep then EmptyString :: split sep s'
      else match split sep s' with
           | [] => [String c EmptyString]
           | w :: ws => String c w :: ws
           end
  end.

(** [sep in s] for a one-character separator. *)
Fixpoint contains (sep : ascii) (s : string) : bool :=
  match s with
  | EmptyString => false
  | String c s' => Ascii.eqb c sep || contains sep s'
  end.

(** ** helpers.py *)

Module Helpers.

(** The loop of [split_text_into_sentence_groups], with the group size as a
    parameter; the state is the pair [(sentence_groups, current_group)]. *)
Section Loop.
Variable limit : nat.

Definition loop_body (st : list string * list string) (sent : string)
  : list string * list string :=
  let '(sentence_groups, current_group) := st in
  let current_group := current_group ++ [sent] in
  if Nat.eqb (length current_group) limit
  then (sentence_groups ++ [join " " current_group], [])
  else (sentence_groups, current_group).

Definition group_sentences (sents : list string) : list string :=
  let '(sentence_groups, current_group) := fold_left loop_body sents ([], []) in
  match current_group with
  | [] => sentence_groups
  | _ :: _ => sentence_groups ++ [join " " current_group]
  end.
End Loop.

(** [nlp(text).sents], the sentence segmentation of spaCy, is external. *)
Definition segmenter := string -> list string.

Definition split_text_into_sentence_groups (nlp : segmenter) (text : string)
  : list string :=
  group_sentences 20 (nlp text).

End Helpers.

(** ** Exceptions *)

Inductive exn :=
| AttributeError    (* an attribute read on [None] *)
| TypeError         (* [await] on a value that is not awaitable *)
| ServiceError.     (* raised by the call to the translation service *)

Inductive result (A : Type) :=
| Ok (a : A)
| Raise (e : exn).
Arguments Ok {A} a.
Arguments Raise {A} e.

(** ** models.py and schemas.py *)

Module OriginalText.
Record t := mk { id : nat; text : string; status : string }.
End OriginalText.

Module Translation.
Record t := mk {
  id : nat;
  text_id : nat;
  status : string;
  language : string;
  translated_content : option string
}.
End Translation.

(** [TextOutSchema] and [TranslationOutSchema] are built from the [__dict__]
    of a row and copy its columns; they are the row records above. *)
Module TranslationInSchema.
Record t := mk { text_id : nat; language : string; status : string }.
End TranslationInSchema.

Module TranslationRequestSchema.
Record t := mk { text : string; languages : list string }.
End TranslationRequestSchema.

Module TextTranslationsSchema.
Record t := mk { id : nat; text : string; translations : list Translation.t }.
End TextTranslationsSchema.

(** ** crud.py *)

Module Crud.

(** The two tables, rows in insertion order. Both primary keys are
    [autoincrement] and no row is ever deleted: the n-th inserted row gets
    id n. *)
Record Database := mkDatabase {
  texts : list OriginalText.t;
  translations : list Translation.t
}.

Definition empty : Database := mkDatabase [] [].

(** [db.query(T).filter(p).first()] followed by an assignment to the row. *)
Fixpoint update_first {A} (p : A -> bool) (f : A -> A) (rows : list A) : list A :=
  match rows with
  | [] => []
  | r :: rows' => if p r then f r :: rows' else r :: update_first p f rows'
  end.

Definition create_text (db : Database) (text : string) : Database * OriginalText.t :=
  let db_text := OriginalText.mk (S (length (texts db))) text "pending" in
  (mkDatabase (texts db ++ [db_text]) (translations db), db_text).

Definition get_text (db : Database) (text_id : nat) : option OriginalText.t :=
  List.find (fun r => Nat.eqb (OriginalText.id r) text_id) (texts db).

Definition update_text_status (db : Database) (text_id : nat) (new_status : string)
  : Database :=
  mkDatabase
    (update_first (fun r => Nat.eqb (OriginalText.id r) text_id)
       (fun r => OriginalText.mk (OriginalText.id r) (OriginalText.text r) new_status)
       (texts db))
    (translations db).

Definition create_translation (db : Database) (translation : TranslationInSchema.t)
  : Database * Translation.t :=
  let db_translation :=
    Translation.mk (S (length (translations db)))
      (TranslationInSchema.text_id translation)
      (TranslationInSchema.status translation)
      (TranslationInSchema.language translation)
      None in
  (mkDatabase (texts db) (translations db ++ [db_translation]), db_translation).

Definition get_translation (db : Database) (id : nat) : option Translation.t :=
  List.find (fun r => Nat.eqb (Translation.id r) id) (translations db).

Definition get_translations_for_text (db : Database) (text_id : nat)
  : list Translation.t :=
  List.filter (fun r => Nat.eqb (Translation.text_id r) text_id) (translations db).

Definition update_translation_fields (db : Database) (id : nat) (status : string)
    (translated_content : string) : Database * option Translation.t :=
  let db' :=
    mkDatabase (texts db)
      (update_first (fun r => Nat.eqb (Translation.id r) id)
         (fun r => Translation.mk (Translation.id r) (Translation.text_id r) status
                     (Translation.language r) (Some translated_content))
         (translations db)) in
  match get_translation db id with
  | Some _ => (db', get_translation db' id)
  | None => (db, None)
  end.

Definition create_translation_task (db : Database)
    (translation_request : TranslationRequestSchema.t) : Database * OriginalText.t :=
  let '(db, text) := create_text db (TranslationRequestSchema.text translation_request) in
  let db :=
    fold_left
      (fun db language =>
         let translation :=
           TranslationInSchema.mk (OriginalText.id text) language "pending" in
         fst (create_translation db translation))
      (TranslationRequestSchema.languages translation_request) db in
  (db, text).

End Crud.

(** ** Concurrent calls

    [list(executor.map(f, xs))] in tasks.py and [await asyncio.gather(...)]
    over the calls [f(x)] in tasks_async.py start one call per element. The
    calls finish in some order [completion], a list of positions of [xs];
    the outcome of a call is stored under the position of that call, and the
    outcomes are handed back by position once every call has finished. *)

Section Concurrent.
Context {A B : Type}.
Variable f : A -> result B.
Variable xs : list A.

Definition finish_call (slots : list (option (result B))) (i : nat)
  : list (option (result B)) :=
  match xs !! i with
  | Some x => <[i := Some (f x)]> slots
  | None => slots
  end.

Definition run_calls (completion : list nat) : list (option (result B)) :=
  fold_left finish_call completion (replicate (length xs) None).

(** [None]: a call has not finished, the caller is still waiting. *)
Fixpoint collect (slots : list (option (result B))) : option (result (list B)) :=
  match slots with
  | [] => Some (Ok [])
  | None :: _ => None
  | Some (Raise e) :: _ => Some (Raise e)
  | Some (Ok b) :: slots' =>
      match collect slots' with
      | None => None
      | Some (Raise e) => Some (Raise e)
      | Some (Ok bs) => Some (Ok (b :: bs))
      end
  end.

Definition executor_map (completion : list nat) : option (result (list B)) :=
  collect (run_calls completion).
End Concurrent.

Definition gather {A B : Type} := @executor_map A B.

(** ** translation_gateway.py

    [translate(text, language)] calls the external service; its answer, or
    the exception it raises, is not determined by the program. *)
Definition translator := string -> string -> result string.

(** ** tasks.py *)

Module Tasks.
Import Crud Helpers.

(** The result is [None] while the worker waits for a chunk call. *)
Definition process_individual_translation (nlp : segmenter) (translate : translator)
    (completion : list nat) (db : Database) (translation_id : nat)
  : option (result unit * Database) :=
  match get_translation db translation_id with
  | None => Some (Raise AttributeError, db)
  | Some translation =>
      match get_text db (Translation.text_id translation) with
      | None => Some (Raise AttributeError, db)
      | Some text =>
          let chunks := split_text_into_sentence_groups nlp (OriginalText.text text) in
          let translate_chunk chunk := translate chunk (Translation.language translation) in
          match executor_map translate_chunk chunks completion with
          | None => None
          | Some (Raise e) => Some (Raise e, db)
          | Some (Ok translated_sentences) =>
              let translated_text := join " " translated_sentences in
              Some (Ok tt,
                    fst (update_translation_fields db translation_id "complete"
                           translated_text))
          end
      end
  end.

Definition update_task_status (db : Database) (text_id : nat) : Database :=
  update_text_status db text_id "completed".

End Tasks.

(** ** tasks_async.py *)

Module TasksAsync.
Import Crud Helpers.

(** [await translate(...)]: the [translate] that tasks_async.py imports from
    translation_gateway.py is an ordinary function, so the call runs to its
    end and hands a [str] to [await], which raises [TypeError]. *)
Definition await_str (r : result string) : result string :=
  match r with
  | Ok _ => Raise TypeError
  | Raise e => Raise e
  end.

Definition process_individual_translation (nlp : segmenter) (translate : translator)
    (completion : list nat) (db : Database) (translation_id : nat)
  : option (result unit * Database) :=
  match get_translation db translation_id with
  | None => Some (Raise AttributeError, db)
  | Some translation =>
      match get_text db (Translation.text_id translation) with
      | None => Some (Raise AttributeError, db)
      | Some text =>
          let chunks := split_text_into_sentence_groups nlp (OriginalText.text text) in
          let translate_chunk chunk :=
            await_str (translate chunk (Translation.language translation)) in
          match gather translate_chunk chunks completion with
          | None => None
          | Some (Raise e) => Some (Raise e, db)
          | Some (Ok translated_sentences) =>
              let translated_text := join " " translated_sentences in
              Some (Ok tt,
                    fst (update_translation_fields db translation_id "complete"
                           translated_text))
          end
      end
  end.

(** *** The retry loop of [query_gpt_async] *)

(** What one [client.post] leads to: a body with the translated content, an
    error status ([raise_for_status]), a read timeout, or an exception that
    neither [except] clause catches. *)
Inductive response :=
| Content (content : string)
| HTTPStatusError
| ReadTimeout
| OtherError.

(** The observable actions of the loop. *)
Inductive event :=
| Post (timeout : Z)
| Sleep (seconds : Z).

Inductive outcome :=
| Return (value : option string)   (* [Return None]: falls off the end *)
| RaiseHTTPStatusError
| RaiseOther.

Record loop_state := mkLoop {
  retries : Z;
  attempts : nat;          (* posts issued so far *)
  trace : list event
}.

Definition wait_time : Z := 21.

(** One evaluation of the [while] condition and, if it holds, of the body.
    [service n] is what the n-th post leads to. *)
Definition iteration (service : nat -> response) (st : loop_state)
  : loop_state * option outcome :=
  if (retries st >? 0)%Z then
    let posted := mkLoop (retries st) (S (attempts st)) (trace st ++ [Post 48]) in
    match service (attempts st) with
    | Content content => (posted, Some (Return (Some content)))
    | HTTPStatusError =>
        let retries := (retries st - 1)%Z in
        if (retries =? 0)%Z
        then (mkLoop retries (attempts posted) (trace posted), Some RaiseHTTPStatusError)
        else (mkLoop retries (attempts posted) (trace posted ++ [Sleep wait_time]), None)
    | ReadTimeout =>
        let retries := (retries st - 1)%Z in
        if (retries =? 0)%Z
        then (mkLoop retries (attempts posted) (trace posted), Some (Return None))
        else (mkLoop retries (attempts posted) (trace posted ++ [Sleep wait_time]), None)
    | OtherError => (posted, Some RaiseOther)
    end
  else (st, Some (Return None)).

(** The loop, for at most [fuel] iterations; [None] when the fuel runs out. *)
Fixpoint while (fuel : nat) (service : nat -> response) (st : loop_state)
  : option (outcome * loop_state) :=
  match fuel with
  | O => None
  | S fuel' =>
      match iteration service st with
      | (st', Some out) => Some (out, st')
      | (st', None) => while fuel' service st'
      end
  end.

Definition query_gpt_async (fuel : nat) (service : nat -> response)
  : option (outcome * loop_state) :=
  while fuel service (mkLoop 42 0 []).

(** The responses caught by the two [except] clauses, and how many of the
    first [n] posts got one. *)
Definition retryable (r : response) : bool :=
  match r with
  | HTTPStatusError | ReadTimeout => true
  | Content _ | OtherError => false
  end.

Fixpoint failures (service : nat -> response) (n : nat) : nat :=
  match n with
  | O => 0
  | S n' => failures service n' + (if retryable (service n') then 1 else 0)
  end.

End TasksAsync.

(** ** main.py *)

Module Main.
Import Crud.

Inductive poll_response :=
| InProgress                                   (* the dict with status "in progress" *)
| Translations (r : TextTranslationsSchema.t).

(** [POST /translate]: the new rows and the id handed to
    [process_translation.delay]. *)
Definition translate (db : Database) (languages : list string) (text : string)
  : Database * nat :=
  let '(db, text) :=
    create_translation_task db (TranslationRequestSchema.mk text languages) in
  (db, OriginalText.id text).

(** [GET /translate/{task_id}] *)
Definition get_translate (db : Database) (task_id : nat) : result poll_response :=
  match get_text db task_id with
  | None => Raise AttributeError               (* [task.status] with [task] None *)
  | Some task =>
      if String.eqb (OriginalText.status task) "pending" then Ok InProgress
      else
        let translations := get_translations_for_text db task_id in
        Ok (Translations
              (TextTranslationsSchema.mk (OriginalText.id task) (OriginalText.text task)
                 translations))
  end.

End Main.

(** ** The orchestration as a transition system

    A state is the database together with the runs of [process_translation]:
    the handler of [POST /translate] queues one run per job
    ([process_translation.delay(text.id)]) after
    [create_translation_task] has returned. A run reads the sub-jobs of
    its job, dispatches one worker per sub-job, and continues with
    [update_text_status(text_id, "completed")] when the workers have
    returned. In tasks.py that call is the body of
    [chord(group(tasks), final_task)], which Celery applies once every task
    of the group has succeeded and never when one has raised; in
    tasks_async.py it follows [await asyncio.gather(...)], which raises
    what a worker raised, so that the call is skipped.

    A worker reads columns that are never written after creation and writes
    once, at its end, so a worker is one transition; the answers of the
    translation service and the order in which the chunk calls finish are
    arbitrary at every transition. The workers of tasks.py are independent
    tasks. In tasks_async.py the workers that are still running when one
    raises are cancelled with the event loop: their transitions are then
    never taken, which leaves fewer behaviours than the system has. *)

Module Orchestration.
Import Crud Helpers.

Inductive worker_state :=
| Dispatched
| Succeeded
| Failed (e : exn).

Inductive run_state :=
| Queued                                            (* delayed, not started *)
| Waiting (workers : list (nat * worker_state))     (* at the fan-in *)
| Finalized.                                        (* the final task has run *)

Record run := mkRun { run_text_id : nat; state_of : run_state }.

Record system := mkSystem { db : Database; runs : list run }.

Definition initial : system := mkSystem Crud.empty [].

Definition finished (r : result unit) : worker_state :=
  match r with
  | Ok _ => Succeeded
  | Raise e => Failed e
  end.

Definition dispatch (translations : list Translation.t) : list (nat * worker_state) :=
  map (fun t => (Translation.id t, Dispatched)) translations.

(** A worker, for a fixed segmenter: [Tasks.process_individual_translation]
    or [TasksAsync.process_individual_translation]. *)
Definition worker : Type :=
  translator -> list nat -> Database -> nat -> option (result unit * Database).

Section Step.
Variable process_individual_translation : worker.

Inductive step : system -> system -> Prop :=
| step_translate db runs languages text db' text_id :
    Main.translate db languages text = (db', text_id) ->
    step (mkSystem db runs) (mkSystem db' (runs ++ [mkRun text_id Queued]))
| step_process_translation db runs k text_id :
    runs !! k = Some (mkRun text_id Queued) ->
    step (mkSystem db runs)
      (mkSystem db
         (<[k := mkRun text_id (Waiting (dispatch (get_translations_for_text db text_id)))]>
            runs))
| step_process_individual_translation db runs k text_id workers i translation_id
    translate completion r db' :
    runs !! k = Some (mkRun text_id (Waiting workers)) ->
    workers !! i = Some (translation_id, Dispatched) ->
    process_individual_translation translate completion db translation_id
      = Some (r, db') ->
    step (mkSystem db runs)
      (mkSystem db'
         (<[k := mkRun text_id (Waiting (<[i := (translation_id, finished r)]> workers))]>
            runs))
| step_update_task_status db runs k text_id workers :
    runs !! k = Some (mkRun text_id (Waiting workers)) ->
    Forall (fun w => snd w = Succeeded) workers ->
    step (mkSystem db runs)
      (mkSystem (Tasks.update_task_status db text_id)
         (<[k := mkRun text_id Finalized]> runs)).

Definition reachable (s : system) : Prop := rtc step initial s.
End Step.

(** *** The invariant of the reachable states *)

(** Row [i] of a table has id [i+1]; a job is [pending] or [completed]; a
    sub-job belongs to a stored job. *)
Definition wf_db (db : Database) : Prop :=
  (forall i job, texts db !! i = Some job ->
     OriginalText.id job = S i
     /\ (OriginalText.status job = "pending" \/ OriginalText.status job = "completed"))
  /\ (forall i t, translations db !! i = Some t ->
        Translation.id t = S i
        /\ 1 <= Translation.text_id t <= length (texts db)).

Definition job_pending (db : Database) (k : nat) : Prop :=
  forall job, texts db !! k = Some job -> OriginalText.status job = "pending".

Definition complete_in (db : Database) (translation_id : nat) : Prop :=
  exists t, get_translation db translation_id = Some t
            /\ Translation.status t = "complete".

(** Run [k] is the run of job [k+1]. Until it is finalized the job is
    pending; its workers are the sub-jobs of the job, and those that
    succeeded have completed their sub-job; once it is finalized every
    sub-job of the job is complete. *)
Definition run_ok (db : Database) (k : nat) (r : run) : Prop :=
  run_text_id r = S k
  /\ match state_of r with
     | Queued => job_pending db k
     | Waiting workers =>
         job_pending db k
         /\ map fst workers = map Translation.id (get_translations_for_text db (S k))
         /\ (forall translation_id,
               (translation_id, Succeeded) ∈ workers -> complete_in db translation_id)
     | Finalized =>
         forall t, t ∈ translations db -> Translation.text_id t = S k ->
                   Translation.status t = "complete"
     end.

Definition invariant (s : system) : Prop :=
  wf_db (db s)
  /\ length (runs s) = length (texts (db s))
  /\ (forall k r, runs s !! k = Some r -> run_ok (db s) k r).

(** The workers of the two files. *)
Inductive worker_of (nlp : segmenter) : worker -> Prop :=
| worker_of_tasks : worker_of nlp (Tasks.process_individual_translation nlp)
| worker_of_tasks_async : worker_of nlp (TasksAsync.process_individual_translation nlp).

(** What the invariant needs of a worker: a run that raises has written
    nothing, and a run that succeeds has found its sub-job and written the
    status [complete] and some content to it. *)
Definition writes_once (w : worker) : Prop :=
  forall translate completion db translation_id r db',
    w translate completion db translation_id = Some (r, db') ->
    match r with
    | Raise _ => db' = db
    | Ok _ =>
        exists t content,
          get_translation db translation_id = Some t
          /\ db' = fst (update_translation_fields db translation_id "complete" content)
    end.

End Orchestration.

(** ** Data for the examples *)

(** A segmenter that takes every line for a sentence. *)
Definition sentences_by_line : Helpers.segmenter := split "010"%char.

Definition lines (l : list string) : string := join (String "010"%char EmptyString) l.

(** A service that fails for Spanish and answers every other language. *)
Definition no_spanish : translator :=
  fun chunk language =>
    if String.eqb language "es" then Raise ServiceError
    else Ok (String.append language (String.append ":" chunk)).

(** A service that answers every language. *)
Definition polyglot : translator :=
  fun chunk language => Ok (String.append language (String.append ":" chunk)).

(** The worker of tasks.py with that segmenter. *)
Definition line_worker : Orchestration.worker :=
  Tasks.process_individual_translation sentences_by_line.

(** The job "A. B." for Spanish and French, as submitted. *)
Definition submitted_db : Crud.Database :=
  fst (Main.translate Crud.empty ["es"; "fr"] "A. B.").

(** The Spanish worker has failed and the French worker is still running. *)
Definition spanish_failed : Orchestration.system :=
  Orchestration.mkSystem submitted_db
    [Orchestration.mkRun 1
       (Orchestration.Waiting
          [(1, Orchestration.Failed ServiceError); (2, Orchestration.Dispatched)])].

(** The Spanish worker has failed and the French worker has succeeded. *)
Definition one_failed : Orchestration.system :=
  Orchestration.mkSystem
    (fst (Crud.update_translation_fields submitted_db 2 "complete" "fr:A. B."))
    [Orchestration.mkRun 1
       (Orchestration.Waiting
          [(1, Orchestration.Failed ServiceError); (2, Orchestration.Succeeded)])].

(** Both workers have succeeded and the final task has not run yet. *)
Definition both_succeeded : Orchestration.system :=
  Orchestration.mkSystem
    (fst (Crud.update_translation_fields
            (fst (Crud.update_translation_fields submitted_db 1 "complete" "es:A. B."))
            2 "complete" "fr:A. B."))
    [Orchestration.mkRun 1
       (Orchestration.Waiting
          [(1, Orchestration.Succeeded); (2, Orchestration.Succeeded)])].

(** Both workers have succeeded and the final task has run. *)
Definition all_done : Orchestration.system :=
  Orchestration.mkSystem
    (Tasks.update_task_status
       (fst (Crud.update_translation_fields
               (fst (Crud.update_translation_fields submitted_db 1 "complete"
                       "es:A. B."))
               2 "complete" "fr:A. B."))
       1)
    [Orchestration.mkRun 1 Orchestration.Finalized].

(** ** What the rows keep *)

(** A sub-job is pending without content or complete with content. *)
Definition sub_job_settled (t : Translation.t) : Prop :=
  (Translation.status t = "pending" /\ Translation.translated_content t = None)
  \/ (Translation.status t = "complete"
      /\ exists content, Translation.translated_content t = Some content).

(** Every row of [db] is still in [db'], at its place, with its identifying
    columns; a completed job is still completed and a complete sub-job is
    still complete. *)
Definition keeps_rows (db db' : Crud.Database) : Prop :=
  (forall i job, Crud.texts db !! i = Some job ->
     exists job',
       Crud.texts db' !! i = Some job'
       /\ OriginalText.id job' = OriginalText.id job
       /\ OriginalText.text job' = OriginalText.text job
       /\ (OriginalText.status job = "completed" ->
           OriginalText.status job' = "completed"))
  /\ (forall i t, Crud.translations db !! i = Some t ->
        exists t',
          Crud.translations db' !! i = Some t'
          /\ Translation.id t' = Translation.id t
          /\ Translation.text_id t' = Translation.text_id t
          /\ Translation.language t' = Translation.language t
          /\ (Translation.status t = "complete" ->
              Translation.status t' = "complete")).

(** ** Runs that can still complete *)

(** The worker is still running. *)
Definition running (ws : nat * Orchestration.worker_state) : bool :=
  match snd ws with
  | Orchestration.Dispatched => true
  | _ => false
  end.

(** The run is not finalized and none of its workers has failed. *)
Definition unfailed (st : Orchestration.run_state) : Prop :=
  match st with
  | Orchestration.Queued => True
  | Orchestration.Waiting workers =>
      Forall (fun ws => forall e, snd ws <> Orchestration.Failed e) workers
  | Orchestration.Finalized => False
  end.

(** The job has been submitted and its run is still queued. *)
Definition submitted : Orchestration.system :=
  Orchestration.mkSystem submitted_db [Orchestration.mkRun 1 Orchestration.Queued].

(** * Properties *)

Example join_ex : join " " ["a"; "b"; "c"] = "a b c".
Proof. reflexivity. Qed.
Example split_ex : split " " "a b  c" = ["a"; "b"; ""; "c"].
Proof. reflexivity. Qed.
Example group_ex : Helpers.group_sentences 2 ["a"; "b"; "c"; "d"; "e"] = ["a b"; "c d"; "e"].
Proof. reflexivity. Qed.

(** Five sentences make one chunk; forty-five make chunks of 20, 20 and 5
    sentences; no sentence makes no chunk. *)
Example five_sentences :
  Helpers.group_sentences 20 ["One."; "Two."; "Three."; "Four."; "Five."]
  = ["One. Two. Three. Four. Five."].
Proof. reflexivity. Qed.

Example forty_five_sentences :
  map (fun chunk => length (split " " chunk))
    (Helpers.group_sentences 20 (replicate 45 "Go."))
  = [20; 20; 5].
Proof. reflexivity. Qed.

Example no_sentence : Helpers.group_sentences 20 [] = [].
Proof. reflexivity. Qed.

(** ** The chunker *)

Section ChunkerFacts.
Import Helpers.
Variable limit : nat.
Hypothesis limit_pos : 1 <= limit.

(** The loop keeps full groups in [sentence_groups] and fewer than [limit]
    sentences in [current_group]. *)
Lemma loop_invariant (sents : list string) :
  forall (gs : list (list string)) (cg : list string),
    length cg < limit ->
    exists (gs' : list (list string)) (cg' : list string),
      fold_left (loop_body limit) sents (map (join " ") gs, cg)
        = (map (join " ") (gs ++ gs'), cg')
      /\ Forall (fun g => length g = limit) gs'
      /\ length cg' < limit
      /\ concat gs' ++ cg' = cg ++ sents.
Proof using limit_pos.
  induction sents as [|sent sents IH]; intros gs cg Hcg; simpl.
  - exists [], cg. rewrite !app_nil_r. repeat split; auto.
  - destruct (Nat.eqb (length (cg ++ [sent])) limit) eqn:E.
    + apply Nat.eqb_eq in E.
      replace (map (join " ") gs ++ [join " " (cg ++ [sent])])
        with (map (join " ") (gs ++ [cg ++ [sent]]))
        by (rewrite map_app; reflexivity).
      destruct (IH (gs ++ [cg ++ [sent]]) []) as (gs' & cg' & Hf & Hall & Hlen & Hcat).
      { simpl. lia. }
      exists ((cg ++ [sent]) :: gs'), cg'.
      rewrite Hf, <- app_assoc. simpl. repeat split; auto.
      rewrite <- !app_assoc. simpl in Hcat. rewrite Hcat. reflexivity.
    + apply Nat.eqb_neq in E.
      destruct (IH gs (cg ++ [sent])) as (gs' & cg' & Hf & Hall & Hlen & Hcat).
      { rewrite length_app in *. simpl in *. lia. }
      exists gs', cg'. rewrite Hf, Hcat, <- app_assoc. repeat split; auto.
Qed.

(** The chunks are the joins of groups that partition the sentences in
    order: every group has between 1 and [limit] sentences, and every
    group but the last has exactly [limit]. *)
Lemma group_sentences_groups (sents : list string) :
  exists groups : list (list string),
    group_sentences limit sents = map (join " ") groups
    /\ concat groups = sents
    /\ Forall (fun g => 1 <= length g <= limit) groups
    /\ (forall i g, groups !! i = Some g -> S i < length groups -> length g = limit).
Proof using limit_pos.
  unfold group_sentences.
  destruct (loop_invariant sents [] []) as (gs' & cg' & Hf & Hall & Hlen & Hcat).
  { simpl. lia. }
  simpl in Hf, Hcat. rewrite Hf.
  assert (Hall' : Forall (fun g : list string => 1 <= length g <= limit) gs').
  { eapply Forall_impl; [exact Hall|]. simpl. intros g Hg. lia. }
  destruct cg' as [|s cg'].
  - exists gs'. rewrite app_nil_r in Hcat. repeat split; auto.
    intros i g Hi _. eapply Forall_lookup_1 in Hall; eauto.
  - exists (gs' ++ [s :: cg']). rewrite map_app. simpl. repeat split.
    + rewrite concat_app. simpl. rewrite app_nil_r. exact Hcat.
    + apply Forall_app. split; auto. constructor; auto. simpl in *. lia.
    + intros i g Hi Hlt. rewrite length_app in Hlt. simpl in Hlt.
      rewrite lookup_app_l in Hi by lia.
      eapply Forall_lookup_1 in Hall; eauto.
Qed.
End ChunkerFacts.

(** In a partition into full groups followed by one shorter group, group [i]
    holds the sentences at positions [i*limit, i*limit+limit). *)
Lemma partition_positions (limit : nat) (groups : list (list string)) :
  Forall (fun g => 1 <= length g <= limit) groups ->
  (forall i g, groups !! i = Some g -> S i < length groups -> length g = limit) ->
  forall i g, groups !! i = Some g ->
    g = take limit (drop (i * limit) (concat groups)).
Proof.
  induction groups as [|g0 rest IH]; intros Hall Hfull i g Hi.
  - discriminate.
  - apply Forall_cons in Hall as [Hg0 Hall].
    destruct rest as [|g1 rest].
    + destruct i as [|i]; [|discriminate]. injection Hi as <-.
      simpl. rewrite app_nil_r, drop_0, take_ge; auto. lia.
    + assert (Hlen0 : length g0 = limit) by (apply (Hfull 0 g0); [reflexivity | simpl; lia]).
      destruct i as [|i].
      * injection Hi as <-. change (concat (g0 :: g1 :: rest)) with (g0 ++ concat (g1 :: rest)).
        rewrite Nat.mul_0_l, drop_0, take_app_length'; auto.
      * change (concat (g0 :: g1 :: rest)) with (g0 ++ concat (g1 :: rest)).
        replace (S i * limit) with (length g0 + i * limit) by lia.
        rewrite drop_app_add. apply IH; auto.
        intros j g' Hj Hlt. apply (Hfull (S j)); auto. simpl in *. lia.
Qed.

(** C1. For every text, the chunks returned by
    [split_text_into_sentence_groups] are the joins of groups of consecutive
    sentences that cover the sentences of the text in order: every chunk but
    the last joins exactly 20 sentences (those at positions [20*i, 20*i+20)),
    the last joins between 1 and 20, no sentence gives no chunk, and between
    1 and 19 sentences give exactly one chunk. *)
Theorem chunk_size_invariant (nlp : Helpers.segmenter) (text : string) :
  exists groups : list (list string),
    Helpers.split_text_into_sentence_groups nlp text = map (join " ") groups
    /\ concat groups = nlp text
    /\ (forall i g, groups !! i = Some g ->
          g = take 20 (drop (i * 20) (nlp text))
          /\ (S i < length groups -> length g = 20))
    /\ (forall g, last groups = Some g -> 1 <= length g <= 20)
    /\ (nlp text = [] -> Helpers.split_text_into_sentence_groups nlp text = [])
    /\ (nlp text <> [] -> length (nlp text) < 20 ->
          Helpers.split_text_into_sentence_groups nlp text = [join " " (nlp text)]).
Proof.
  unfold Helpers.split_text_into_sentence_groups.
  destruct (group_sentences_groups 20 ltac:(lia) (nlp text))
    as (groups & Heq & Hcat & Hall & Hfull).
  exists groups. split; [exact Heq|]. split; [exact Hcat|].
  split; [|split; [|split]].
  - intros i g Hi. split; [|eauto].
    rewrite <- Hcat. apply partition_positions; auto.
  - intros g Hlast. rewrite last_lookup in Hlast.
    eapply Forall_lookup_1 in Hall; eauto.
  - intros Hnil. rewrite Hnil. reflexivity.
  - intros Hne Hlt. rewrite Heq.
    destruct groups as [|g0 [|g1 rest]].
    + simpl in Hcat. congruence.
    + simpl in Hcat. rewrite app_nil_r in Hcat. subst g0. reflexivity.
    + exfalso. assert (length g0 = 20) by (apply (Hfull 0 g0); [reflexivity | simpl; lia]).
      rewrite <- Hcat in Hlt. simpl in Hlt. rewrite length_app in Hlt. lia.
Qed.

(** ** Joining and splitting *)

Lemma join_cons (sep x : string) (l : list string) :
  l <> [] -> join sep (x :: l) = String.append x (String.append sep (join sep l)).
Proof. destruct l; [congruence | reflexivity]. Qed.

Lemma append_nil (t : string) : String.append EmptyString t = t.
Proof. reflexivity. Qed.

Lemma append_cons (c : ascii) (s t : string) :
  String.append (String c s) t = String c (String.append s t).
Proof. reflexivity. Qed.

Lemma string_app_assoc (a b c : string) :
  String.append (String.append a b) c = String.append a (String.append b c).
Proof.
  induction a as [|ch a IH]; [reflexivity|].
  rewrite !append_cons, IH. reflexivity.
Qed.

Lemma join_app (sep : string) (l1 l2 : list string) :
  l1 <> [] -> l2 <> [] ->
  join sep (l1 ++ l2)
  = String.append (join sep l1) (String.append sep (join sep l2)).
Proof.
  induction l1 as [|x [|y l1] IH]; intros H1 H2; [congruence| |].
  - simpl app. rewrite join_cons by assumption. reflexivity.
  - change ((x :: y :: l1) ++ l2) with (x :: ((y :: l1) ++ l2)).
    rewrite join_cons by discriminate. rewrite IH by (auto; discriminate).
    rewrite (join_cons sep x (y :: l1)) by discriminate.
    rewrite !string_app_assoc. reflexivity.
Qed.

(** Joining the joins of non-empty groups is joining all their elements. *)
Lemma join_concat (sep : string) (groups : list (list string)) :
  Forall (fun g => g <> []) groups ->
  join sep (map (join sep) groups) = join sep (concat groups).
Proof.
  induction groups as [|g [|g' groups] IH]; intros Hne; [reflexivity| |].
  - simpl. rewrite app_nil_r. reflexivity.
  - apply Forall_cons in Hne as [Hg Hne].
    change (map (join sep) (g :: g' :: groups))
      with (join sep g :: map (join sep) (g' :: groups)).
    rewrite join_cons by discriminate. rewrite IH by assumption.
    change (concat (g :: g' :: groups)) with (g ++ concat (g' :: groups)).
    rewrite join_app; auto.
    apply Forall_cons in Hne as [Hg' _]. simpl. destruct g'; [congruence | discriminate].
Qed.

Lemma split_no_sep (sep : ascii) (s : string) :
  contains sep s = false -> split sep s = [s].
Proof.
  induction s as [|c s IH]; simpl; [reflexivity|].
  intros H. apply orb_false_iff in H as [Hc Hs].
  rewrite Hc, IH by assumption. reflexivity.
Qed.

Lemma split_app_sep (sep : ascii) (s rest : string) :
  contains sep s = false ->
  split sep (String.append s (String sep rest)) = s :: split sep rest.
Proof.
  induction s as [|c s IH].
  - intros _. rewrite append_nil. simpl. rewrite Ascii.eqb_refl. reflexivity.
  - intros H. simpl in H. apply orb_false_iff in H as [Hc Hs].
    rewrite append_cons. simpl. rewrite Hc, IH by assumption. reflexivity.
Qed.

(** Splitting a join gives back the pieces when there is at least one piece
    and no piece contains the separator. *)
Lemma split_join (sents : list string) :
  sents <> [] ->
  Forall (fun s => contains " " s = false) sents ->
  split " " (join " " sents) = sents.
Proof.
  induction sents as [|s [|s' sents] IH]; intros Hne Hall; [congruence| |].
  - apply Forall_cons in Hall as [Hs _]. simpl. apply split_no_sep, Hs.
  - apply Forall_cons in Hall as [Hs Hall].
    rewrite join_cons by discriminate.
    change (String.append " " (join " " (s' :: sents)))
      with (String " "%char (join " " (s' :: sents))).
    rewrite split_app_sep by assumption. rewrite IH; auto.
Qed.

(** C2, as stated, at the sentence sequence of the text
    "This is a sample text.": splitting the joined chunks on the space gives
    the five words, not the one sentence. And at the empty sentence sequence:
    there is no chunk, the join is the empty string, and splitting it gives
    one empty piece. *)
Lemma chunk_order_counterexample :
  1 <= 20
  /\ split " " (join " " (Helpers.group_sentences 20 ["This is a sample text."]))
     = ["This"; "is"; "a"; "sample"; "text."]
  /\ split " " (join " " (Helpers.group_sentences 20 ["This is a sample text."]))
     <> ["This is a sample text."]
  /\ split " " (join " " (Helpers.group_sentences 20 [])) = [""]
  /\ split " " (join " " (Helpers.group_sentences 20 [])) <> [].
Proof.
  split; [lia|]. split; [reflexivity|]. split; [discriminate|].
  split; [reflexivity | discriminate].
Qed.

(** C2, amended. For every limit of at least 1 and every non-empty sequence
    of sentences none of which contains a space, joining the chunks in
    output order with a space and splitting the result on the space gives
    back the sentence sequence. *)
Theorem chunk_order_invariant (limit : nat) (sents : list string) :
  1 <= limit ->
  sents <> [] ->
  Forall (fun s => contains " " s = false) sents ->
  split " " (join " " (Helpers.group_sentences limit sents)) = sents.
Proof.
  intros Hlimit Hne Hall.
  destruct (group_sentences_groups limit Hlimit sents)
    as (groups & Heq & Hcat & Hsizes & _).
  rewrite Heq, join_concat, Hcat; [apply split_join; assumption|].
  eapply Forall_impl; [exact Hsizes|]. simpl. intros [|] Hg; [simpl in Hg; lia | discriminate].
Qed.

Lemma chunk_order_invariant_witness :
  split " " (join " " (Helpers.group_sentences 2 ["Uno."; "Dos."; "Tres."]))
  = ["Uno."; "Dos."; "Tres."].
Proof.
  apply (chunk_order_invariant 2 ["Uno."; "Dos."; "Tres."]).
  - lia.
  - discriminate.
  - repeat constructor.
Defined.

(** ** Concurrent calls *)

Section ConcurrentFacts.
Context {A B : Type}.
Variable f : A -> result B.
Variable xs : list A.

Lemma finish_call_length (slots : list (option (result B))) (i : nat) :
  length (finish_call f xs slots i) = length slots.
Proof. unfold finish_call. destruct (xs !! i); [apply length_insert | reflexivity]. Qed.

Lemma fold_finish_call_length (completion : list nat) :
  forall slots, length (fold_left (finish_call f xs) completion slots) = length slots.
Proof.
  induction completion as [|i completion IH]; intros slots; simpl; [reflexivity|].
  rewrite IH. apply finish_call_length.
Qed.

(** A slot holds the outcome of its own call once that call has finished,
    whatever the order in which the calls finish. *)
Lemma fold_finish_call_lookup (completion : list nat) :
  forall slots j x,
    length slots = length xs ->
    xs !! j = Some x ->
    fold_left (finish_call f xs) completion slots !! j
    = if bool_decide (j ∈ completion) then Some (Some (f x)) else slots !! j.
Proof.
  induction completion as [|i completion IH]; intros slots j x Hlen Hj; simpl.
  - reflexivity.
  - rewrite (IH _ j x) by (rewrite ?finish_call_length; assumption).
    destruct (bool_decide (j ∈ completion)) eqn:E.
    + apply bool_decide_eq_true in E.
      rewrite bool_decide_eq_true_2 by (right; assumption). reflexivity.
    + apply bool_decide_eq_false in E. unfold finish_call.
      destruct (decide (i = j)) as [->|Hne].
      * rewrite Hj, list_lookup_insert_eq by (apply lookup_lt_Some in Hj; lia).
        rewrite bool_decide_eq_true_2 by left. reflexivity.
      * rewrite bool_decide_eq_false_2
          by (intros [?|?]%elem_of_cons; [congruence | contradiction]).
        destruct (xs !! i); [apply list_lookup_insert_ne; assumption | reflexivity].
Qed.

Lemma run_calls_lookup (completion : list nat) (j : nat) (x : A) :
  xs !! j = Some x ->
  run_calls f xs completion !! j
  = Some (if bool_decide (j ∈ completion) then Some (f x) else None).
Proof.
  intros Hj. unfold run_calls.
  rewrite (fold_finish_call_lookup completion _ j x); auto using length_replicate.
  destruct (bool_decide _); [reflexivity|].
  apply lookup_replicate_2. eapply lookup_lt_Some; eauto.
Qed.

(** Once every call has finished, the slots are the outcomes by position. *)
Lemma run_calls_all (completion : list nat) :
  (forall j, j < length xs -> j ∈ completion) ->
  run_calls f xs completion = map (fun x => Some (f x)) xs.
Proof.
  intros Hall. apply list_eq. intros j. rewrite list_lookup_fmap.
  destruct (xs !! j) as [x|] eqn:Hj; simpl.
  - rewrite (run_calls_lookup completion j x Hj).
    rewrite bool_decide_eq_true_2; [reflexivity|].
    apply Hall. eapply lookup_lt_Some; eauto.
  - apply lookup_ge_None. apply lookup_ge_None in Hj.
    unfold run_calls. rewrite fold_finish_call_length, length_replicate. exact Hj.
Qed.

(** The outcomes are handed back only when every call has finished. *)
Lemma collect_Some (slots : list (option (result B))) (bs : list B) :
  collect slots = Some (Ok bs) -> slots = map (fun b => Some (Ok b)) bs.
Proof.
  revert bs. induction slots as [|[[b|e]|] slots IH]; intros bs H; simpl in H.
  - injection H as <-. reflexivity.
  - destruct (collect slots) as [[bs'|e]|]; try discriminate.
    injection H as <-. simpl. f_equal. apply IH. reflexivity.
  - discriminate.
  - discriminate.
Qed.

Lemma collect_map_Ok (bs : list B) :
  collect (map (fun b => Some (Ok b)) bs) = Some (Ok bs).
Proof. induction bs as [|b bs IH]; simpl; [reflexivity | rewrite IH; reflexivity]. Qed.

(** The results of [executor.map] are the results of the calls by
    position, for every order of completion. *)
Lemma executor_map_Ok (completion : list nat) (bs : list B) :
  executor_map f xs completion = Some (Ok bs) ->
  Forall2 (fun x b => f x = Ok b) xs bs.
Proof.
  unfold executor_map. intros H. apply collect_Some in H.
  apply Forall2_same_length_lookup. split.
  - apply (f_equal length) in H.
    unfold run_calls in H.
    rewrite fold_finish_call_length, length_replicate, length_map in H. exact H.
  - intros j x b Hx Hb.
    apply (f_equal (fun l => l !! j)) in H.
    rewrite (run_calls_lookup completion j x Hx), list_lookup_fmap, Hb in H.
    simpl in H. destruct (bool_decide _); congruence.
Qed.

Lemma executor_map_all_Ok (completion : list nat) (bs : list B) :
  (forall j, j < length xs -> j ∈ completion) ->
  Forall2 (fun x b => f x = Ok b) xs bs ->
  executor_map f xs completion = Some (Ok bs).
Proof.
  intros Hall Hok. unfold executor_map. rewrite run_calls_all by assumption.
  replace (map (fun x => Some (f x)) xs) with (map (fun b => Some (Ok b)) bs).
  - apply collect_map_Ok.
  - clear Hall. induction Hok as [|x b xs' bs' Hxb _ IH]; simpl; [reflexivity|].
    rewrite Hxb. f_equal. assumption.
Qed.
End ConcurrentFacts.

(** ** The tables *)

Section TableFacts.
Import Crud.
Context {A : Type}.

Lemma find_update_first_same (p : A -> bool) (f : A -> A) (rows : list A) :
  (forall r, p (f r) = p r) ->
  List.find p (update_first p f rows) = option_map f (List.find p rows).
Proof.
  intros Hp. induction rows as [|r rows IH]; simpl; [reflexivity|].
  destruct (p r) eqn:E; simpl.
  - rewrite Hp, E. reflexivity.
  - rewrite E. exact IH.
Qed.

Lemma find_update_first_other (p q : A -> bool) (f : A -> A) (rows : list A) :
  (forall r, q (f r) = q r) ->
  (forall r, p r = true -> q r = false) ->
  List.find q (update_first p f rows) = List.find q rows.
Proof.
  intros Hq Hpq. induction rows as [|r rows IH]; simpl; [reflexivity|].
  destruct (p r) eqn:E; simpl.
  - rewrite Hq, (Hpq r E). reflexivity.
  - destruct (q r); [reflexivity | exact IH].
Qed.

Lemma update_first_length (p : A -> bool) (f : A -> A) (rows : list A) :
  length (update_first p f rows) = length rows.
Proof.
  induction rows as [|r rows IH]; simpl; [reflexivity|].
  destruct (p r); simpl; congruence.
Qed.

Lemma update_first_lookup (p : A -> bool) (f : A -> A) (rows : list A) (i : nat) :
  update_first p f rows !! i = rows !! i
  \/ exists r, rows !! i = Some r /\ p r = true /\ update_first p f rows !! i = Some (f r).
Proof.
  revert i. induction rows as [|r rows IH]; intros i; simpl; [left; reflexivity|].
  destruct (p r) eqn:E.
  - destruct i as [|i]; [right; exists r; auto | left; reflexivity].
  - destruct i as [|i]; [left; reflexivity | apply (IH i)].
Qed.
End TableFacts.

Section CrudFacts.
Import Crud.

Lemma get_translation_update_same (db : Database) (id : nat) (status content : string)
    (t : Translation.t) :
  get_translation db id = Some t ->
  get_translation (fst (update_translation_fields db id status content)) id
  = Some (Translation.mk (Translation.id t) (Translation.text_id t) status
            (Translation.language t) (Some content)).
Proof.
  intros Hget. unfold update_translation_fields. rewrite Hget. simpl.
  unfold get_translation in *. simpl.
  rewrite find_update_first_same by reflexivity. rewrite Hget. reflexivity.
Qed.

Lemma get_translation_update_other (db : Database) (id id' : nat)
    (status content : string) :
  id <> id' ->
  get_translation (fst (update_translation_fields db id status content)) id'
  = get_translation db id'.
Proof.
  intros Hne. unfold update_translation_fields.
  destruct (get_translation db id); [|reflexivity]. simpl.
  unfold get_translation. simpl. apply find_update_first_other; [reflexivity|].
  intros r Hr. apply Nat.eqb_eq in Hr. apply Nat.eqb_neq. congruence.
Qed.

Lemma texts_update_translation_fields (db : Database) (id : nat)
    (status content : string) :
  texts (fst (update_translation_fields db id status content)) = texts db.
Proof.
  unfold update_translation_fields. destruct (get_translation db id); reflexivity.
Qed.
End CrudFacts.

(** ** The sub-job worker *)

Section WorkerFacts.
Import Crud Helpers.
Variable nlp : segmenter.
Variable translate : translator.
Variable completion : list nat.

(** A run that succeeds has read the sub-job and its job, got one
    translation per chunk, and written their join. *)
Lemma worker_Ok (db : Database) (translation_id : nat) (db' : Database) :
  Tasks.process_individual_translation nlp translate completion db translation_id
    = Some (Ok tt, db') ->
  exists translation text translated,
    get_translation db translation_id = Some translation
    /\ get_text db (Translation.text_id translation) = Some text
    /\ Forall2 (fun chunk out => translate chunk (Translation.language translation) = Ok out)
         (split_text_into_sentence_groups nlp (OriginalText.text text)) translated
    /\ db' = fst (update_translation_fields db translation_id "complete"
                   (join " " translated)).
Proof.
  unfold Tasks.process_individual_translation. intros H.
  destruct (get_translation db translation_id) as [translation|] eqn:Ht;
    [|discriminate].
  destruct (get_text db (Translation.text_id translation)) as [text|] eqn:Htext;
    [|discriminate].
  destruct (executor_map _ _ completion) as [[translated|e]|] eqn:E; try discriminate.
  injection H as <-. exists translation, text, translated.
  split; [reflexivity|]. split; [exact Htext|]. split; [|reflexivity].
  eapply executor_map_Ok; eauto.
Qed.

(** A run that fails has written nothing. *)
Lemma worker_Raise (db : Database) (translation_id : nat) (e : exn) (db' : Database) :
  Tasks.process_individual_translation nlp translate completion db translation_id
    = Some (Raise e, db') ->
  db' = db.
Proof.
  unfold Tasks.process_individual_translation. intros H.
  destruct (get_translation db translation_id) as [translation|]; [|congruence].
  destruct (get_text db (Translation.text_id translation)) as [text|]; [|congruence].
  destruct (executor_map _ _ completion) as [[translated|e']|]; congruence.
Qed.

(** The worker succeeds once every chunk call has finished with a
    translation. *)
Lemma worker_succeeds (db : Database) (translation_id : nat)
    (translation : Translation.t) (text : OriginalText.t) (translated : list string) :
  get_translation db translation_id = Some translation ->
  get_text db (Translation.text_id translation) = Some text ->
  Forall2 (fun chunk out => translate chunk (Translation.language translation) = Ok out)
    (split_text_into_sentence_groups nlp (OriginalText.text text)) translated ->
  (forall j, j < length (split_text_into_sentence_groups nlp (OriginalText.text text)) ->
             j ∈ completion) ->
  Tasks.process_individual_translation nlp translate completion db translation_id
  = Some (Ok tt, fst (update_translation_fields db translation_id "complete"
                        (join " " translated))).
Proof.
  intros Ht Htext Hok Hall. unfold Tasks.process_individual_translation.
  rewrite Ht, Htext.
  rewrite (executor_map_all_Ok _ _ completion translated Hall Hok). reflexivity.
Qed.
End WorkerFacts.

(** A run of the worker of tasks_async.py succeeds only when there is no
    chunk to translate; the worker of tasks.py then succeeds with the same
    result. *)
Lemma async_worker_Ok (nlp : Helpers.segmenter) (translate : translator)
    (completion : list nat) (db : Crud.Database) (translation_id : nat)
    (db' : Crud.Database) :
  TasksAsync.process_individual_translation nlp translate completion db translation_id
    = Some (Ok tt, db') ->
  Tasks.process_individual_translation nlp translate completion db translation_id
    = Some (Ok tt, db').
Proof.
  unfold TasksAsync.process_individual_translation, Tasks.process_individual_translation.
  destruct (Crud.get_translation db translation_id) as [translation|]; [|discriminate].
  destruct (Crud.get_text db (Translation.text_id translation)) as [text|];
    [|discriminate].
  destruct (gather _ _ completion) as [[translated|e]|] eqn:E; try discriminate.
  intros [= <-]. apply executor_map_Ok in E.
  destruct E as [|chunk out chunks translated Hout _].
  - unfold executor_map, run_calls. simpl.
    replace (fold_left _ completion []) with (@nil (option (result string))).
    + reflexivity.
    + clear. induction completion as [|i completion IH]; simpl; [reflexivity|].
      exact IH.
  - unfold TasksAsync.await_str in Hout.
    destruct (translate chunk (Translation.language translation)); discriminate.
Qed.

Lemma async_worker_Raise (nlp : Helpers.segmenter) (translate : translator)
    (completion : list nat) (db : Crud.Database) (translation_id : nat) (e : exn)
    (db' : Crud.Database) :
  TasksAsync.process_individual_translation nlp translate completion db translation_id
    = Some (Raise e, db') ->
  db' = db.
Proof.
  unfold TasksAsync.process_individual_translation. intros H.
  destruct (Crud.get_translation db translation_id) as [translation|]; [|congruence].
  destruct (Crud.get_text db (Translation.text_id translation)) as [text|];
    [|congruence].
  destruct (gather _ _ completion) as [[translated|e']|]; congruence.
Qed.

(** C3. When the sub-job worker succeeds, in tasks.py as in tasks_async.py,
    the [translated_content] it writes is the join, with single spaces, of
    the translations of the chunks C0..Cn in the order of the chunks,
    whatever the order [completion] in which the chunk calls finished; the
    status it writes is [complete]. *)
Theorem aggregation_order_invariant (nlp : Helpers.segmenter) (translate : translator)
    (completion : list nat) (db : Crud.Database) (translation_id : nat)
    (db' : Crud.Database) :
  Tasks.process_individual_translation nlp translate completion db translation_id
    = Some (Ok tt, db')
  \/ TasksAsync.process_individual_translation nlp translate completion db translation_id
    = Some (Ok tt, db') ->
  exists translation text translated,
    Crud.get_translation db translation_id = Some translation
    /\ Crud.get_text db (Translation.text_id translation) = Some text
    /\ Forall2 (fun chunk out => translate chunk (Translation.language translation) = Ok out)
         (Helpers.split_text_into_sentence_groups nlp (OriginalText.text text)) translated
    /\ Crud.get_translation db' translation_id
       = Some (Translation.mk (Translation.id translation)
                 (Translation.text_id translation) "complete"
                 (Translation.language translation) (Some (join " " translated))).
Proof.
  intros H.
  assert (H' : Tasks.process_individual_translation nlp translate completion db
                 translation_id = Some (Ok tt, db'))
    by (destruct H as [H|H]; [exact H | apply async_worker_Ok; exact H]).
  apply worker_Ok in H' as (translation & text & translated & Ht & Htext & Hok & ->).
  exists translation, text, translated. repeat split; auto.
  apply get_translation_update_same. exact Ht.
Qed.

(** Three chunks (45 sentences) whose calls finish in the order 2, 0, 1. *)
Lemma aggregation_order_invariant_witness :
  let nlp := sentences_by_line in
  let translate : translator :=
    fun chunk language => Ok (String.append language (String.append ":" chunk)) in
  let db := fst (Main.translate Crud.empty ["es"] (lines (replicate 45 "Go."))) in
  exists db',
    Tasks.process_individual_translation nlp translate [2; 0; 1] db 1 = Some (Ok tt, db')
    /\ exists translation text translated,
         Crud.get_translation db 1 = Some translation
         /\ Crud.get_text db (Translation.text_id translation) = Some text
         /\ Forall2
              (fun chunk out => translate chunk (Translation.language translation) = Ok out)
              (Helpers.split_text_into_sentence_groups nlp (OriginalText.text text))
              translated
         /\ Crud.get_translation db' 1
            = Some (Translation.mk (Translation.id translation)
                      (Translation.text_id translation) "complete"
                      (Translation.language translation) (Some (join " " translated))).
Proof.
  intros nlp translate db. eexists. split.
  - vm_compute. reflexivity.
  - apply (aggregation_order_invariant nlp translate [2; 0; 1] db 1).
    left. vm_compute. reflexivity.
Defined.

(** Without a sentence the worker completes the sub-job with empty content. *)
Example worker_no_sentence :
  let db := fst (Main.translate Crud.empty ["es"] "") in
  option_map (fun out => Crud.get_translation (snd out) 1)
    (Tasks.process_individual_translation (fun _ => []) (fun _ _ => Raise ServiceError)
       [] db 1)
  = Some (Some (Translation.mk 1 1 "complete" "es" (Some ""))).
Proof. reflexivity. Qed.

(** The worker of tasks_async.py fails where the worker of tasks.py
    succeeds, as soon as there is a chunk. *)
Example async_worker_raises :
  let db := fst (Main.translate Crud.empty ["es"] "Hello.") in
  option_map fst
    (TasksAsync.process_individual_translation sentences_by_line
       (fun _ _ => Ok "Hola.") [0] db 1)
  = Some (Raise TypeError)
  /\ option_map fst
       (Tasks.process_individual_translation sentences_by_line
          (fun _ _ => Ok "Hola.") [0] db 1)
     = Some (Ok tt).
Proof. split; reflexivity. Qed.

(** C8, as stated, at a sub-job that a first run of the worker completed
    with the content "Hola.": a second run, to which the service answers
    "Buenos dias.", replaces the content. *)
Lemma idempotent_terminal_state_counterexample :
  let nlp := sentences_by_line in
  let db := fst (Main.translate Crud.empty ["es"] "Hello.") in
  exists db1 db2,
    Tasks.process_individual_translation nlp (fun _ _ => Ok "Hola.") [0] db 1
      = Some (Ok tt, db1)
    /\ Crud.get_translation db1 1
       = Some (Translation.mk 1 1 "complete" "es" (Some "Hola."))
    /\ Tasks.process_individual_translation nlp (fun _ _ => Ok "Buenos dias.") [0] db1 1
       = Some (Ok tt, db2)
    /\ Crud.get_translation db2 1
       = Some (Translation.mk 1 1 "complete" "es" (Some "Buenos dias."))
    /\ option_map Translation.translated_content (Crud.get_translation db2 1)
       <> option_map Translation.translated_content (Crud.get_translation db1 1).
Proof.
  intros nlp db. eexists. eexists.
  split; [vm_compute; reflexivity|].
  split; [reflexivity|].
  split; [vm_compute; reflexivity|].
  split; [reflexivity|]. vm_compute. discriminate.
Qed.

(** C8, amended. Running the worker, of tasks.py or of tasks_async.py, on a
    sub-job whose status is [complete] never reverts the status and never
    changes the language or the owning job. A run that raises leaves the
    database as it was; a run that succeeds overwrites [translated_content]
    with the join of the chunk translations of that run (there is no guard
    on the status). *)
Theorem rerun_on_complete (nlp : Helpers.segmenter) (translate : translator)
    (completion : list nat) (db : Crud.Database) (translation_id : nat)
    (translation : Translation.t) (r : result unit) (db' : Crud.Database) :
  Crud.get_translation db translation_id = Some translation ->
  Translation.status translation = "complete" ->
  Tasks.process_individual_translation nlp translate completion db translation_id
    = Some (r, db')
  \/ TasksAsync.process_individual_translation nlp translate completion db translation_id
    = Some (r, db') ->
  exists translation',
    Crud.get_translation db' translation_id = Some translation'
    /\ Translation.status translation' = "complete"
    /\ Translation.language translation' = Translation.language translation
    /\ Translation.text_id translation' = Translation.text_id translation
    /\ match r with
       | Raise _ => db' = db
       | Ok _ =>
           exists text translated,
             Crud.get_text db (Translation.text_id translation) = Some text
             /\ Forall2
                  (fun chunk out =>
                     translate chunk (Translation.language translation) = Ok out)
                  (Helpers.split_text_into_sentence_groups nlp (OriginalText.text text))
                  translated
             /\ Translation.translated_content translation'
                = Some (join " " translated)
       end.
Proof.
  intros Ht Hstatus Hrun. destruct r as [[]|e].
  - assert (Hrun' : Tasks.process_individual_translation nlp translate completion db
                      translation_id = Some (Ok tt, db'))
      by (destruct Hrun as [H|H]; [exact H | apply async_worker_Ok; exact H]).
    apply worker_Ok in Hrun' as (t & text & translated & Ht' & Htext & Hok & ->).
    rewrite Ht in Ht'. injection Ht' as <-.
    eexists. split; [apply get_translation_update_same; exact Ht|].
    simpl. repeat split. exists text, translated. auto.
  - assert (db' = db) as ->
      by (destruct Hrun as [H|H];
          [eapply worker_Raise; eauto | eapply async_worker_Raise; eauto]).
    exists translation. auto.
Qed.

Lemma rerun_on_complete_witness :
  let nlp := sentences_by_line in
  let translate : translator := fun _ _ => Ok "Buenos dias." in
  let db :=
    Crud.mkDatabase [OriginalText.mk 1 "Hello." "completed"]
      [Translation.mk 1 1 "complete" "es" (Some "Hola.")] in
  exists translation',
    Crud.get_translation
      (fst (Crud.update_translation_fields db 1 "complete" "Buenos dias.")) 1
    = Some translation'
    /\ Translation.status translation' = "complete"
    /\ Translation.language translation' = "es"
    /\ Translation.text_id translation' = 1
    /\ exists text translated,
         Crud.get_text db 1 = Some text
         /\ Forall2 (fun chunk out => translate chunk "es" = Ok out)
              (Helpers.split_text_into_sentence_groups nlp (OriginalText.text text))
              translated
         /\ Translation.translated_content translation' = Some (join " " translated).
Proof.
  intros nlp translate db.
  apply (rerun_on_complete nlp translate [0] db 1
           (Translation.mk 1 1 "complete" "es" (Some "Hola.")) (Ok tt)).
  - reflexivity.
  - reflexivity.
  - left. reflexivity.
Defined.

(** ** Submitting and polling *)

Lemma create_translations_fold (text_id : nat) (languages : list string) :
  forall db : Crud.Database,
    fold_left
      (fun db language =>
         fst (Crud.create_translation db
                (TranslationInSchema.mk text_id language "pending")))
      languages db
    = Crud.mkDatabase (Crud.texts db)
        (Crud.translations db
         ++ imap (fun i language =>
                    Translation.mk (S (length (Crud.translations db) + i)) text_id
                      "pending" language None)
              languages).
Proof.
  induction languages as [|language languages IH]; intros db; simpl.
  - rewrite app_nil_r. destruct db; reflexivity.
  - rewrite IH. simpl. rewrite <- app_assoc. simpl. do 3 f_equal.
    + rewrite Nat.add_0_r. reflexivity.
    + apply imap_ext. intros i l _. simpl. rewrite length_app. simpl.
      f_equal. lia.
Qed.

(** The rows that [create_translation_task] leaves in the tables. *)
Lemma create_translation_task_rows (db : Crud.Database) (t : string) (L : list string) :
  Crud.create_translation_task db (TranslationRequestSchema.mk t L)
  = (Crud.mkDatabase
       (Crud.texts db ++ [OriginalText.mk (S (length (Crud.texts db))) t "pending"])
       (Crud.translations db
        ++ imap (fun i language =>
                   Translation.mk (S (length (Crud.translations db) + i))
                     (S (length (Crud.texts db))) "pending" language None)
             L),
     OriginalText.mk (S (length (Crud.texts db))) t "pending").
Proof.
  unfold Crud.create_translation_task, Crud.create_text. cbv beta iota zeta.
  rewrite create_translations_fold. reflexivity.
Qed.

Lemma filter_new_translations (text_id n : nat) (L : list string) :
  map Translation.language
    (List.filter (fun r => Nat.eqb (Translation.text_id r) text_id)
       (imap (fun i language => Translation.mk (S (n + i)) text_id "pending" language None)
          L))
  = L.
Proof.
  revert n. induction L as [|language L IH]; intros n; [reflexivity|].
  simpl. rewrite Nat.eqb_refl. simpl. f_equal.
  etransitivity; [|apply (IH (S n))]. do 2 f_equal.
  apply imap_ext. intros i l _. simpl. f_equal. lia.
Qed.

(** C9. [create_translation_task], called by the handler of
    [POST /translate] with text [t] and languages [L], appends one job row
    with text [t] and status [pending] to the texts, and one sub-job row per
    element of [L], in the order of [L], each with that language, the id of
    the new job, status [pending] and no content, to the translations;
    the rows that were there are unchanged and nothing else is added. *)
Theorem submit_creates_records (db : Crud.Database) (t : string) (L : list string) :
  let job := OriginalText.mk (S (length (Crud.texts db))) t "pending" in
  let db' :=
    Crud.mkDatabase (Crud.texts db ++ [job])
      (Crud.translations db
       ++ imap (fun i language =>
                  Translation.mk (S (length (Crud.translations db) + i))
                    (OriginalText.id job) "pending" language None)
            L) in
  Crud.create_translation_task db (TranslationRequestSchema.mk t L) = (db', job)
  /\ Main.translate db L t = (db', OriginalText.id job)
  /\ length (Crud.texts db') = S (length (Crud.texts db))
  /\ length (Crud.translations db') = length (Crud.translations db) + length L
  /\ map Translation.language (Crud.get_translations_for_text db' (OriginalText.id job))
     = map Translation.language
         (Crud.get_translations_for_text db (OriginalText.id job)) ++ L.
Proof.
  intros job db'. split; [apply create_translation_task_rows|]. split.
  { unfold Main.translate. rewrite create_translation_task_rows. reflexivity. }
  split.
  { subst db'. simpl. rewrite length_app. simpl. lia. }
  split.
  { subst db'. simpl. rewrite length_app, length_imap. reflexivity. }
  subst db'. unfold Crud.get_translations_for_text. simpl.
  rewrite List.filter_app, map_app. f_equal. apply filter_new_translations.
Qed.

Lemma find_absent {A : Type} (p : A -> bool) (rows : list A) :
  (forall r, r ∈ rows -> p r = false) -> List.find p rows = None.
Proof.
  induction rows as [|r rows IH]; intros H; simpl; [reflexivity|].
  rewrite (H r) by left. apply IH. intros r' Hr'. apply H. right. exact Hr'.
Qed.

(** C10. Polling an id under which no job row is stored faults:
    [get_text] returns [None] and [get_translate] reads [task.status] on it
    before anything else. *)
Theorem poll_absent_job_faults (db : Crud.Database) (task_id : nat) :
  (forall job, job ∈ Crud.texts db -> OriginalText.id job <> task_id) ->
  Crud.get_text db task_id = None
  /\ Main.get_translate db task_id = Raise AttributeError.
Proof.
  intros Habsent.
  assert (Hget : Crud.get_text db task_id = None).
  { unfold Crud.get_text. apply find_absent. intros job Hin.
    apply Nat.eqb_neq. apply Habsent. exact Hin. }
  split; [exact Hget|]. unfold Main.get_translate. rewrite Hget. reflexivity.
Qed.

Lemma poll_absent_job_faults_witness :
  let db := fst (Main.translate Crud.empty ["es"; "fr"] "A. B.") in
  Crud.get_text db 2 = None /\ Main.get_translate db 2 = Raise AttributeError.
Proof.
  intros db. apply (poll_absent_job_faults db 2).
  intros job Hin. apply list_elem_of_In in Hin. simpl in Hin.
  destruct Hin as [<-|[]]. simpl. lia.
Defined.

Example poll_in_progress :
  Main.get_translate (fst (Main.translate Crud.empty ["es"; "fr"] "A. B.")) 1
  = Ok Main.InProgress.
Proof. reflexivity. Qed.

(** A stored job is answered and does not fault. *)
Lemma poll_stored_job (db : Crud.Database) (task_id : nat) (job : OriginalText.t) :
  Crud.get_text db task_id = Some job ->
  exists answer, Main.get_translate db task_id = Ok answer.
Proof.
  intros Hget. unfold Main.get_translate. rewrite Hget.
  destruct (String.eqb _ _); eauto.
Qed.

(** ** The retry loop *)

Section RetryFacts.
Import TasksAsync.
Variable service : nat -> response.

Lemma failures_le (n : nat) : failures service n <= n.
Proof.
  induction n as [|n IH]; simpl; [lia|].
  destruct (retryable (service n)); lia.
Qed.

Lemma failures_all (n : nat) :
  (forall i, i < n -> retryable (service i) = true) -> failures service n = n.
Proof.
  induction n as [|n IH]; intros H; simpl; [reflexivity|].
  rewrite (H n) by lia. rewrite IH by (intros; apply H; lia). lia.
Qed.

(** More fuel does not change the result. *)
Lemma while_more_fuel (fuel fuel' : nat) (st : loop_state)
    (r : outcome * loop_state) :
  fuel <= fuel' -> while fuel service st = Some r -> while fuel' service st = Some r.
Proof.
  revert fuel' st. induction fuel as [|fuel IH]; intros fuel' st Hle H; [discriminate|].
  destruct fuel' as [|fuel']; [lia|]. simpl in *.
  destruct (iteration service st) as [st' [out|]]; [exact H|].
  apply IH; [lia | exact H].
Qed.

(** One evaluation of the body moves the counter down by one exactly when
    the post met a caught failure, and issues one post with timeout 48. *)
Lemma iteration_counter (st : loop_state) :
  (0 < retries st)%Z ->
  let st' := fst (iteration service st) in
  attempts st' = S (attempts st)
  /\ retries st'
     = (retries st - if retryable (service (attempts st)) then 1 else 0)%Z
  /\ exists waits, trace st' = trace st ++ Post 48 :: waits
       /\ (waits = [] \/ waits = [Sleep 21]).
Proof.
  intros Hpos. unfold iteration.
  assert (E : (retries st >? 0)%Z = true) by lia. rewrite E.
  destruct (service (attempts st)); simpl.
  - split; [reflexivity|]. split; [lia|]. exists []. auto.
  - destruct (retries st - 1 =? 0)%Z; simpl;
      (split; [reflexivity|]); (split; [lia|]).
    + exists []. auto.
    + exists [Sleep 21]. rewrite <- app_assoc. auto.
  - destruct (retries st - 1 =? 0)%Z; simpl;
      (split; [reflexivity|]); (split; [lia|]).
    + exists []. auto.
    + exists [Sleep 21]. rewrite <- app_assoc. auto.
  - split; [reflexivity|]. split; [lia|]. exists []. auto.
Qed.

(** The loop from a state reached after [attempts st] caught failures. *)
Lemma while_spec (fuel : nat) :
  forall st : loop_state,
    (0 < retries st)%Z ->
    retries st = (42 - Z.of_nat (attempts st))%Z ->
    Z.to_nat (retries st) <= fuel ->
    trace st = concat (replicate (attempts st) [Post 48; Sleep 21]) ->
    (forall i, i < attempts st -> retryable (service i) = true) ->
    exists out st',
      while fuel service st = Some (out, st')
      /\ attempts st < attempts st' <= 42
      /\ trace st'
         = concat (replicate (attempts st' - 1) [Post 48; Sleep 21]) ++ [Post 48]
      /\ retries st' = (42 - Z.of_nat (failures service (attempts st')))%Z
      /\ (forall i, S i < attempts st' -> retryable (service i) = true)
      /\ match service (attempts st' - 1) with
         | Content content => out = Return (Some content)
         | HTTPStatusError => out = RaiseHTTPStatusError /\ retries st' = 0%Z
         | ReadTimeout => out = Return None /\ retries st' = 0%Z
         | OtherError => out = RaiseOther
         end.
Proof.
  induction fuel as [|fuel IH]; intros st Hpos Hret Hfuel Htrace Hfail; [lia|].
  assert (Hlast : forall a, S a - 1 = a) by (intros; lia).
  assert (Hf : failures service (S (attempts st))
               = attempts st + (if retryable (service (attempts st)) then 1 else 0)).
  { simpl. rewrite (failures_all _ Hfail). reflexivity. }
  assert (Hprev : forall i, S i < S (attempts st) -> retryable (service i) = true)
    by (intros i Hi; apply Hfail; lia).
  assert (Hnext : concat (replicate (S (attempts st)) [Post 48; Sleep 21])
                  = (trace st ++ [Post 48]) ++ [Sleep wait_time]).
  { rewrite Htrace, <- app_assoc, replicate_S_end, concat_app. reflexivity. }
  simpl. unfold iteration.
  assert (E : (retries st >? 0)%Z = true) by lia. rewrite E.
  destruct (service (attempts st)) as [content| | |] eqn:Hs; cbn [retryable] in Hf;
    try match goal with
        | |- context [(?r =? 0)%Z] => destruct (r =? 0)%Z eqn:E0
        end.
  (* the loop is left after this post *)
  1, 2, 4, 6:
    (eexists _, _; split; [reflexivity|]; cbn [attempts trace retries];
     rewrite Hlast, Hs, Htrace, Hf; repeat split; auto; lia).
  (* a caught failure with attempts to spare: sleep and go round again *)
  all: destruct (IH (mkLoop (retries st - 1) (S (attempts st))
                       ((trace st ++ [Post 48]) ++ [Sleep wait_time])))
         as (out & st' & Hrun & Hatt & Htr & Hcnt & Hprev' & Hout);
       cbn [attempts trace retries]; auto; try lia;
       [ intros i Hi; destruct (decide (i = attempts st)) as [->|Hne];
         [rewrite Hs; reflexivity | apply Hfail; lia]
       | exists out, st'; cbn [attempts] in Hatt; repeat split; auto; lia ].
Qed.
End RetryFacts.

Lemma query_gpt_async_spec (service : nat -> TasksAsync.response) :
  exists out st,
    TasksAsync.query_gpt_async 42 service = Some (out, st)
    /\ 1 <= TasksAsync.attempts st <= 42
    /\ TasksAsync.trace st
       = concat (replicate (TasksAsync.attempts st - 1)
                   [TasksAsync.Post 48; TasksAsync.Sleep 21])
         ++ [TasksAsync.Post 48]
    /\ TasksAsync.retries st
       = (42 - Z.of_nat (TasksAsync.failures service (TasksAsync.attempts st)))%Z
    /\ (forall i, S i < TasksAsync.attempts st ->
                  TasksAsync.retryable (service i) = true)
    /\ match service (TasksAsync.attempts st - 1) with
       | TasksAsync.Content content => out = TasksAsync.Return (Some content)
       | TasksAsync.HTTPStatusError =>
           out = TasksAsync.RaiseHTTPStatusError /\ TasksAsync.retries st = 0%Z
       | TasksAsync.ReadTimeout =>
           out = TasksAsync.Return None /\ TasksAsync.retries st = 0%Z
       | TasksAsync.OtherError => out = TasksAsync.RaiseOther
       end.
Proof.
  destruct (while_spec service 42 (TasksAsync.mkLoop 42 0 []))
    as (out & st & Hrun & Hatt & Htrace & Hcnt & Hprev & Hout); simpl; try lia.
  - reflexivity.
  - exists out, st. simpl in Hatt. repeat split; auto; lia.
Qed.

(** C6. For every behaviour of the service, the retry loop of
    [query_gpt_async] terminates (42 iterations are enough, and more fuel
    gives the same result) after at least 1 and at most 42 posts; every post
    carries the timeout 48; consecutive posts are separated by exactly one
    sleep of 21, and no sleep follows the last post; the counter [retries]
    ends at 42 minus the number of posts that met a caught failure (error
    status or read timeout), and every post before the last met one. *)
Theorem retry_loop_bounded (service : nat -> TasksAsync.response) :
  exists out st,
    (forall fuel, 42 <= fuel -> TasksAsync.query_gpt_async fuel service = Some (out, st))
    /\ 1 <= TasksAsync.attempts st <= 42
    /\ TasksAsync.trace st
       = concat (replicate (TasksAsync.attempts st - 1)
                   [TasksAsync.Post 48; TasksAsync.Sleep 21])
         ++ [TasksAsync.Post 48]
    /\ TasksAsync.retries st
       = (42 - Z.of_nat (TasksAsync.failures service (TasksAsync.attempts st)))%Z
    /\ (forall i, S i < TasksAsync.attempts st ->
                  TasksAsync.retryable (service i) = true).
Proof.
  destruct (query_gpt_async_spec service)
    as (out & st & Hrun & Hatt & Htrace & Hcnt & Hprev & _).
  exists out, st. repeat split; auto; try lia.
  intros fuel Hfuel. unfold TasksAsync.query_gpt_async in *.
  eapply while_more_fuel; eauto.
Qed.

(** C7. When all 42 posts meet a caught failure, the outcome is decided by
    the last one: an error status is raised to the caller, a read timeout
    makes the call return without a value. *)
Theorem retry_exhaustion_asymmetry (service : nat -> TasksAsync.response) :
  (forall i, i < 42 -> TasksAsync.retryable (service i) = true) ->
  exists out st,
    TasksAsync.query_gpt_async 42 service = Some (out, st)
    /\ TasksAsync.attempts st = 42
    /\ TasksAsync.retries st = 0%Z
    /\ (service 41 = TasksAsync.HTTPStatusError -> out = TasksAsync.RaiseHTTPStatusError)
    /\ (service 41 = TasksAsync.ReadTimeout -> out = TasksAsync.Return None).
Proof.
  intros Hfail.
  destruct (query_gpt_async_spec service)
    as (out & st & Hrun & Hatt & Htrace & Hcnt & Hprev & Hout).
  assert (Hlast : TasksAsync.retryable (service (TasksAsync.attempts st - 1)) = true)
    by (apply Hfail; lia).
  assert (Hzero : TasksAsync.retries st = 0%Z).
  { destruct (service (TasksAsync.attempts st - 1)); try discriminate; tauto. }
  assert (Hall : TasksAsync.attempts st = 42).
  { pose proof (failures_le service (TasksAsync.attempts st)). lia. }
  exists out, st. rewrite Hall in Hout. simpl in Hout.
  repeat split; auto.
  - intros Hs. rewrite Hs in Hout. tauto.
  - intros Hs. rewrite Hs in Hout. tauto.
Qed.

(** Forty-one error statuses followed by a read timeout: no value, no
    exception. *)
Lemma retry_exhaustion_asymmetry_witness :
  let service := fun i => if Nat.ltb i 41 then TasksAsync.HTTPStatusError
                          else TasksAsync.ReadTimeout in
  exists out st,
    TasksAsync.query_gpt_async 42 service = Some (out, st)
    /\ TasksAsync.attempts st = 42
    /\ TasksAsync.retries st = 0%Z
    /\ (service 41 = TasksAsync.HTTPStatusError -> out = TasksAsync.RaiseHTTPStatusError)
    /\ (service 41 = TasksAsync.ReadTimeout -> out = TasksAsync.Return None).
Proof.
  intros service. apply (retry_exhaustion_asymmetry service).
  intros i Hi. unfold service. destruct (Nat.ltb i 41); reflexivity.
Defined.

Example retry_all_error_status :
  option_map fst (TasksAsync.query_gpt_async 42 (fun _ => TasksAsync.HTTPStatusError))
  = Some TasksAsync.RaiseHTTPStatusError.
Proof. reflexivity. Qed.

Example retry_all_read_timeout :
  option_map fst (TasksAsync.query_gpt_async 42 (fun _ => TasksAsync.ReadTimeout))
  = Some (TasksAsync.Return None).
Proof. reflexivity. Qed.

Example retry_second_post_answers :
  TasksAsync.query_gpt_async 42
    (fun i => if Nat.eqb i 0 then TasksAsync.ReadTimeout else TasksAsync.Content "Hola.")
  = Some (TasksAsync.Return (Some "Hola."),
          TasksAsync.mkLoop 41 2
            [TasksAsync.Post 48; TasksAsync.Sleep 21; TasksAsync.Post 48]).
Proof. reflexivity. Qed.

(** ** The orchestration *)

(** Case analysis on a transition, naming the arguments of the rules. *)
Ltac step_cases Hstep :=
  destruct Hstep as [db runs languages text db' text_id' Htr
                    |db runs k' text_id' Hk'
                    |db runs k' text_id' workers' i' translation_id' translate
                       completion r db' Hk' Hi' Hrun
                    |db runs k' text_id' workers' Hk' Hall].

(** In a table whose row [i] has key [off + i], a key finds its row. *)
Lemma find_by_position {A : Type} (key : A -> nat) (rows : list A) :
  forall off,
    (forall i r, rows !! i = Some r -> key r = off + i) ->
    forall i r, rows !! i = Some r ->
      List.find (fun r' => Nat.eqb (key r') (off + i)) rows = Some r.
Proof.
  induction rows as [|a rows IH]; intros off Hkey i r Hi; [discriminate|].
  simpl. destruct i as [|i].
  - injection Hi as ->. rewrite (Hkey 0 r) by reflexivity. rewrite Nat.eqb_refl.
    reflexivity.
  - rewrite (Hkey 0 a) by reflexivity.
    replace (Nat.eqb (off + 0) (off + S i)) with false by (symmetry; apply Nat.eqb_neq; lia).
    replace (off + S i) with (S off + i) by lia.
    apply IH; [|exact Hi].
    intros j r' Hj. rewrite (Hkey (S j) r') by exact Hj. lia.
Qed.


Section UpdateFacts.
Import Crud.
Context {A : Type}.
Variables (p q : A -> bool) (f : A -> A).

(** An update that keeps what [q] tests and what [g] reads is invisible to
    [g] after a filter by [q]. *)
Lemma map_filter_update_first {B : Type} (g : A -> B) (rows : list A) :
  (forall r, q (f r) = q r) ->
  (forall r, g (f r) = g r) ->
  map g (List.filter q (update_first p f rows)) = map g (List.filter q rows).
Proof.
  intros Hq Hg. induction rows as [|r rows IH]; simpl; [reflexivity|].
  destruct (p r); simpl.
  - rewrite Hq. destruct (q r); simpl; [rewrite Hg|]; reflexivity.
  - destruct (q r); simpl; [rewrite IH|]; auto.
Qed.

Lemma elem_of_update_first (rows : list A) (r' : A) :
  r' ∈ update_first p f rows ->
  r' ∈ rows \/ exists r, r ∈ rows /\ p r = true /\ r' = f r.
Proof.
  intros [i Hi]%list_elem_of_lookup.
  destruct (update_first_lookup p f rows i) as [Hsame|(r & Hr & Hp & Hupd)].
  - left. apply list_elem_of_lookup. exists i. congruence.
  - right. exists r. split; [apply list_elem_of_lookup; eauto|].
    split; [exact Hp | congruence].
Qed.
End UpdateFacts.

Section DatabaseFacts.
Import Crud Orchestration.
Variable db : Database.
Hypothesis Hwf : wf_db db.

Lemma wf_get_text (k : nat) (job : OriginalText.t) :
  texts db !! k = Some job -> get_text db (S k) = Some job.
Proof using Hwf.
  intros Hk. unfold get_text.
  apply (find_by_position OriginalText.id (texts db) 1); [|exact Hk].
  intros i r Hi. apply Hwf in Hi as [-> _]. reflexivity.
Qed.


Lemma wf_get_translation (t : Translation.t) :
  t ∈ translations db -> get_translation db (Translation.id t) = Some t.
Proof using Hwf.
  intros [i Hi]%list_elem_of_lookup. unfold get_translation.
  destruct Hwf as [_ Htr]. destruct (Htr i t Hi) as [-> _].
  apply (find_by_position Translation.id (translations db) 1); [|exact Hi].
  intros j r Hj. apply Htr in Hj as [-> _]. reflexivity.
Qed.

Lemma wf_job_of_translation (t : Translation.t) :
  t ∈ translations db ->
  exists job, get_text db (Translation.text_id t) = Some job.
Proof using Hwf.
  intros [i Hi]%list_elem_of_lookup. destruct Hwf as [_ Htr].
  destruct (Htr i t Hi) as [_ Hrange].
  destruct (texts db !! (Translation.text_id t - 1)) as [job|] eqn:Hjob.
  - exists job. replace (Translation.text_id t) with (S (Translation.text_id t - 1)) by lia.
    apply wf_get_text. exact Hjob.
  - apply lookup_ge_None in Hjob. lia.
Qed.
End DatabaseFacts.

Lemma find_app_l {A : Type} (p : A -> bool) (l1 l2 : list A) (r : A) :
  List.find p l1 = Some r -> List.find p (l1 ++ l2) = Some r.
Proof.
  induction l1 as [|a l1 IH]; simpl; [discriminate|].
  destruct (p a); auto.
Qed.

Lemma filter_none {A : Type} (p : A -> bool) (l : list A) :
  (forall r, r ∈ l -> p r = false) -> List.filter p l = [].
Proof.
  induction l as [|a l IH]; intros H; simpl; [reflexivity|].
  rewrite (H a) by left. apply IH. intros r Hr. apply H. right. exact Hr.
Qed.

Section InvariantFacts.
Import Crud Orchestration.

Lemma invariant_initial : invariant initial.
Proof.
  split; [|split]; simpl.
  - split; intros i x Hi; discriminate.
  - reflexivity.
  - intros k r Hk. discriminate.
Qed.

(** *** Submitting a job *)

Section Submit.
Variables (db : Database) (t : string) (L : list string).

Let db' : Database := fst (Main.translate db L t).

Lemma translate_db' :
  Main.translate db L t = (db', S (length (texts db)))
  /\ texts db' = texts db ++ [OriginalText.mk (S (length (texts db))) t "pending"]
  /\ translations db'
     = translations db
       ++ imap (fun i language =>
                  Translation.mk (S (length (translations db) + i))
                    (S (length (texts db))) "pending" language None)
            L.
Proof.
  unfold db', Main.translate. rewrite create_translation_task_rows. auto.
Qed.

Lemma new_translation_text_id (r : Translation.t) :
  r ∈ imap (fun i language =>
              Translation.mk (S (length (translations db) + i))
                (S (length (texts db))) "pending" language None) L ->
  Translation.text_id r = S (length (texts db)).
Proof.
  intros [i Hi]%list_elem_of_lookup. rewrite list_lookup_imap in Hi.
  destruct (L !! i); [|discriminate]. injection Hi as <-. reflexivity.
Qed.

Lemma wf_db_translate : wf_db db -> wf_db db'.
Proof.
  destruct translate_db' as (_ & Htexts & Htrans).
  intros [Hjobs Hsubs]. split.
  - intros i job. rewrite Htexts. intros [Hi|[Hle Hi]]%lookup_app_Some.
    + apply Hjobs. exact Hi.
    + destruct (i - length (texts db)) as [|n] eqn:E; [|discriminate].
      injection Hi as <-. simpl. split; [f_equal; lia | auto].
  - intros i r. rewrite Htrans, Htexts, length_app. simpl.
    intros [Hi|[Hle Hi]]%lookup_app_Some.
    + destruct (Hsubs i r Hi) as [Hid Hrange]. split; [exact Hid | lia].
    + rewrite list_lookup_imap in Hi.
      destruct (L !! (i - length (translations db))); [|discriminate].
      injection Hi as <-. simpl. split; [f_equal; lia | lia].
Qed.

Lemma get_translations_for_text_translate (k : nat) :
  k < length (texts db) ->
  get_translations_for_text db' (S k) = get_translations_for_text db (S k).
Proof.
  destruct translate_db' as (_ & _ & Htrans). intros Hk.
  unfold get_translations_for_text. rewrite Htrans, List.filter_app.
  rewrite (filter_none _ (imap _ _)); [apply app_nil_r|].
  intros r Hr. apply new_translation_text_id in Hr. apply Nat.eqb_neq. lia.
Qed.

Lemma complete_in_translate (translation_id : nat) :
  complete_in db translation_id -> complete_in db' translation_id.
Proof.
  destruct translate_db' as (_ & _ & Htrans).
  intros (r & Hget & Hstatus). exists r. split; [|exact Hstatus].
  unfold get_translation. rewrite Htrans. apply find_app_l. exact Hget.
Qed.

Lemma run_ok_translate (k : nat) (r : run) :
  k < length (texts db) -> run_ok db k r -> run_ok db' k r.
Proof.
  destruct translate_db' as (_ & Htexts & Htrans).
  intros Hk [Hid Hstate]. split; [exact Hid|].
  assert (Hpending : job_pending db k -> job_pending db' k).
  { intros Hp job. rewrite Htexts, lookup_app_l by exact Hk. apply Hp. }
  destruct (state_of r) as [|workers|].
  - auto.
  - destruct Hstate as (Hp & Hworkers & Hdone). split; [auto|]. split.
    + rewrite get_translations_for_text_translate by exact Hk. exact Hworkers.
    + intros translation_id Hin. apply complete_in_translate. auto.
  - intros r' Hin Htid. rewrite Htrans in Hin.
    apply elem_of_app in Hin as [Hin|Hin]; [auto|].
    apply new_translation_text_id in Hin. lia.
Qed.

Lemma invariant_translate (runs : list run) :
  invariant (mkSystem db runs) ->
  invariant (mkSystem db' (runs ++ [mkRun (S (length (texts db))) Queued])).
Proof.
  destruct translate_db' as (_ & Htexts & _).
  intros (Hwf & Hlen & Hruns). simpl in *. split; [|split]; simpl.
  - apply wf_db_translate. exact Hwf.
  - rewrite Htexts, !length_app. simpl. lia.
  - intros k r [Hk|[Hle Hk]]%lookup_app_Some.
    + apply run_ok_translate; [|auto].
      apply lookup_lt_Some in Hk. lia.
    + destruct (k - length runs) as [|n] eqn:E; [|discriminate].
      injection Hk as <-. assert (k = length (texts db)) as -> by lia.
      split; [reflexivity|]. simpl. intros job. rewrite Htexts.
      rewrite lookup_app_r by lia. rewrite Nat.sub_diag. simpl.
      intros [= <-]. reflexivity.
Qed.
End Submit.
End InvariantFacts.

Section InvariantSteps.
Import Crud Orchestration.

(** *** Starting the run *)

Lemma dispatch_ids (translations : list Translation.t) :
  map fst (dispatch translations) = map Translation.id translations.
Proof. unfold dispatch. rewrite map_map. reflexivity. Qed.

Lemma dispatch_none_succeeded (translations : list Translation.t) (id : nat) :
  (id, Succeeded) ∉ dispatch translations.
Proof.
  unfold dispatch. intros Hin. apply list_elem_of_In, in_map_iff in Hin.
  destruct Hin as (r & Heq & _). simpl in Heq. congruence.
Qed.

Lemma invariant_process_translation (db : Database) (runs : list run)
    (k text_id : nat) :
  invariant (mkSystem db runs) ->
  runs !! k = Some (mkRun text_id Queued) ->
  invariant
    (mkSystem db
       (<[k := mkRun text_id (Waiting (dispatch (get_translations_for_text db text_id)))]>
          runs)).
Proof.
  intros (Hwf & Hlen & Hruns) Hk. simpl in *. split; [exact Hwf|]. split; simpl.
  - rewrite length_insert. exact Hlen.
  - intros k' r Hk'. destruct (decide (k = k')) as [<-|Hne].
    + rewrite list_lookup_insert_eq in Hk' by (eapply lookup_lt_Some; eauto).
      injection Hk' as <-. destruct (Hruns k _ Hk) as [Hid Hp]. simpl in *.
      split; [exact Hid|]. simpl. split; [exact Hp|]. split.
      * rewrite dispatch_ids, Hid. reflexivity.
      * intros id Hin. exfalso. eapply dispatch_none_succeeded; eauto.
    + rewrite list_lookup_insert_ne in Hk' by exact Hne. auto.
Qed.

(** *** A worker returns *)

Lemma workers_insert_ids (workers : list (nat * worker_state)) (i id : nat)
    (w w' : worker_state) :
  workers !! i = Some (id, w) ->
  map fst (<[i := (id, w')]> workers) = map fst workers.
Proof.
  intros Hi. change (map fst) with (fmap (M := list) (@fst nat worker_state)).
  rewrite list_fmap_insert. simpl. apply list_insert_id.
  rewrite list_lookup_fmap, Hi. reflexivity.
Qed.

Lemma workers_insert_succeeded (workers : list (nat * worker_state)) (i id id' : nat)
    (w : worker_state) :
  (id', Succeeded) ∈ <[i := (id, w)]> workers ->
  (id', Succeeded) ∈ workers \/ (id' = id /\ w = Succeeded).
Proof.
  intros [j Hj]%list_elem_of_lookup. destruct (decide (i = j)) as [<-|Hne].
  - destruct (decide (i < length workers)) as [Hlt|Hge].
    + rewrite list_lookup_insert_eq in Hj by exact Hlt. injection Hj as -> ->. auto.
    + rewrite list_insert_ge in Hj by lia. left. apply list_elem_of_lookup. eauto.
  - rewrite list_lookup_insert_ne in Hj by exact Hne.
    left. apply list_elem_of_lookup. eauto.
Qed.

Section Write.
Variables (db : Database) (translation_id : nat) (content : string)
  (t : Translation.t).
Hypothesis Hget : get_translation db translation_id = Some t.

Let db' : Database :=
  fst (update_translation_fields db translation_id "complete" content).

Lemma write_db' :
  texts db' = texts db
  /\ translations db'
     = update_first (fun r => Nat.eqb (Translation.id r) translation_id)
         (fun r => Translation.mk (Translation.id r) (Translation.text_id r)
                     "complete" (Translation.language r) (Some content))
         (translations db).
Proof using Hget.
  unfold db', update_translation_fields. rewrite Hget. auto.
Qed.

Lemma wf_db_write : wf_db db -> wf_db db'.
Proof using Hget.
  destruct write_db' as [Htexts Htrans]. intros [Hjobs Hsubs]. split.
  - rewrite Htexts. exact Hjobs.
  - intros i r. rewrite Htrans, Htexts. intros Hi.
    destruct (update_first_lookup
                (fun r => Nat.eqb (Translation.id r) translation_id)
                (fun r => Translation.mk (Translation.id r) (Translation.text_id r)
                            "complete" (Translation.language r) (Some content))
                (translations db) i) as [Hsame|(r0 & Hr0 & _ & Hupd)].
    + rewrite Hsame in Hi. auto.
    + rewrite Hupd in Hi. injection Hi as <-. simpl. auto.
Qed.

Lemma complete_in_written : complete_in db' translation_id.
Proof using Hget.
  eexists. split; [apply get_translation_update_same; exact Hget | reflexivity].
Qed.

Lemma complete_in_write (id : nat) : complete_in db id -> complete_in db' id.
Proof using Hget.
  intros Hc. destruct (decide (translation_id = id)) as [<-|Hne].
  - apply complete_in_written.
  - destruct Hc as (r & Hr & Hstatus). exists r. split; [|exact Hstatus].
    unfold db'. rewrite get_translation_update_other by exact Hne. exact Hr.
Qed.

Lemma run_ok_write (k : nat) (r : run) : run_ok db k r -> run_ok db' k r.
Proof using Hget.
  destruct write_db' as [Htexts Htrans].
  intros [Hid Hstate]. split; [exact Hid|].
  assert (Hpending : job_pending db k -> job_pending db' k).
  { unfold job_pending. rewrite Htexts. auto. }
  destruct (state_of r) as [|workers|].
  - auto.
  - destruct Hstate as (Hp & Hworkers & Hdone). split; [auto|]. split.
    + unfold get_translations_for_text. rewrite Htrans.
      rewrite map_filter_update_first by reflexivity. exact Hworkers.
    + intros id Hin. apply complete_in_write. auto.
  - intros r' Hin Htid. rewrite Htrans in Hin.
    apply elem_of_update_first in Hin as [Hin|(r0 & Hin & _ & ->)]; auto.
Qed.
End Write.

(** The two workers write at most once. *)
Lemma tasks_writes_once (nlp : Helpers.segmenter) :
  writes_once (Tasks.process_individual_translation nlp).
Proof.
  intros translate completion db translation_id [[]|e] db' Hrun.
  - apply worker_Ok in Hrun as (t & text & translated & Ht & _ & _ & ->). eauto.
  - eapply worker_Raise; eauto.
Qed.

Lemma async_writes_once (nlp : Helpers.segmenter) :
  writes_once (TasksAsync.process_individual_translation nlp).
Proof.
  intros translate completion db translation_id [[]|e] db' Hrun.
  - apply async_worker_Ok in Hrun. apply (tasks_writes_once nlp) in Hrun. exact Hrun.
  - eapply async_worker_Raise; eauto.
Qed.

Lemma worker_of_writes_once (nlp : Helpers.segmenter) (w : worker) :
  worker_of nlp w -> writes_once w.
Proof. intros [|]; [apply tasks_writes_once | apply async_writes_once]. Qed.

Lemma invariant_process_individual_translation (w : worker)
    (db : Database) (runs : list run) (k text_id : nat)
    (workers : list (nat * worker_state)) (i translation_id : nat)
    (translate : translator) (completion : list nat) (r : result unit)
    (db' : Database) :
  writes_once w ->
  invariant (mkSystem db runs) ->
  runs !! k = Some (mkRun text_id (Waiting workers)) ->
  workers !! i = Some (translation_id, Dispatched) ->
  w translate completion db translation_id = Some (r, db') ->
  invariant
    (mkSystem db'
       (<[k := mkRun text_id (Waiting (<[i := (translation_id, finished r)]> workers))]>
          runs)).
Proof.
  intros Hw (Hwf & Hlen & Hruns) Hk Hi Hrun. simpl in *.
  assert (Hstep : wf_db db' /\ texts db' = texts db
                  /\ (forall k' r', run_ok db k' r' -> run_ok db' k' r')
                  /\ (r = Ok tt -> complete_in db' translation_id)).
  { apply Hw in Hrun. destruct r as [[]|e].
    - destruct Hrun as (t & content & Ht & ->).
      split; [eapply wf_db_write; eauto|].
      split; [apply texts_update_translation_fields|].
      split; [intros k' r'; eapply run_ok_write; eauto|].
      intros _. eapply complete_in_written; eauto.
    - subst db'.
      split; [exact Hwf|]. split; [reflexivity|]. split; [auto | discriminate]. }
  destruct Hstep as (Hwf' & Htexts & Hframe & Hdone).
  split; [exact Hwf'|]. split; simpl.
  - rewrite length_insert, Htexts. exact Hlen.
  - intros k' r' Hk'. destruct (decide (k = k')) as [<-|Hne].
    + rewrite list_lookup_insert_eq in Hk' by (eapply lookup_lt_Some; eauto).
      injection Hk' as <-.
      destruct (Hframe k _ (Hruns k _ Hk)) as [Hid (Hp & Hworkers & Hsucc)].
      simpl in *. split; [exact Hid|]. simpl. split; [exact Hp|]. split.
      * rewrite (workers_insert_ids workers i translation_id Dispatched) by exact Hi.
        exact Hworkers.
      * intros id [Hin|[-> Hfin]]%workers_insert_succeeded; [auto|].
        apply Hdone. destruct r as [[]|e]; [reflexivity | discriminate].
    + rewrite list_lookup_insert_ne in Hk' by exact Hne. auto.
Qed.
End InvariantSteps.

(** In a table whose row [i] has key [off + i], the first row with key
    [off + k] is row [k]. *)
Lemma update_first_alter {A : Type} (key : A -> nat) (f : A -> A) (rows : list A) :
  forall off,
    (forall i r, rows !! i = Some r -> key r = off + i) ->
    forall k,
      Crud.update_first (fun r => Nat.eqb (key r) (off + k)) f rows = alter f k rows.
Proof.
  induction rows as [|a rows IH]; intros off Hkey k; [reflexivity|].
  simpl. rewrite (Hkey 0 a) by reflexivity. destruct k as [|k].
  - rewrite Nat.eqb_refl. reflexivity.
  - replace (Nat.eqb (off + 0) (off + S k)) with false
      by (symmetry; apply Nat.eqb_neq; lia).
    simpl. f_equal. replace (off + S k) with (S off + k) by lia.
    apply IH. intros j r Hj. rewrite (Hkey (S j) r) by exact Hj. lia.
Qed.

Section InvariantFinal.
Import Crud Orchestration.

(** *** The final task *)

Section Finalize.
Variables (db : Database) (k : nat).
Hypothesis Hwf : wf_db db.

Let db' : Database := Tasks.update_task_status db (S k).

Lemma update_task_status_texts :
  texts db'
  = alter (fun r => OriginalText.mk (OriginalText.id r) (OriginalText.text r)
                      "completed") k (texts db)
  /\ translations db' = translations db.
Proof using Hwf.
  split; [|reflexivity].
  unfold db', Tasks.update_task_status, update_text_status. simpl.
  apply (update_first_alter OriginalText.id _ (texts db) 1).
  intros i r Hi. destruct Hwf as [Hjobs _]. destruct (Hjobs i r Hi) as [-> _].
  reflexivity.
Qed.

Lemma wf_db_update_task_status : wf_db db'.
Proof using Hwf.
  destruct update_task_status_texts as [Htexts Htrans].
  destruct Hwf as [Hjobs Hsubs]. split.
  - intros i job. rewrite Htexts. destruct (decide (k = i)) as [<-|Hne].
    + rewrite list_lookup_alter_eq.
      destruct (texts db !! k) as [job0|] eqn:Hjob0; [|discriminate].
      simpl. intros [= <-]. simpl. destruct (Hjobs k job0 Hjob0). auto.
    + rewrite list_lookup_alter_ne by exact Hne. apply Hjobs.
  - rewrite Htrans, Htexts, length_alter. exact Hsubs.
Qed.

Lemma run_ok_update_task_status (k' : nat) (r : run) :
  k' <> k -> run_ok db k' r -> run_ok db' k' r.
Proof using Hwf.
  destruct update_task_status_texts as [Htexts Htrans].
  intros Hne [Hid Hstate]. split; [exact Hid|].
  assert (Hpending : job_pending db k' -> job_pending db' k').
  { unfold job_pending. rewrite Htexts, list_lookup_alter_ne by auto. auto. }
  destruct (state_of r) as [|workers|]; [auto | | exact Hstate].
  destruct Hstate as (Hp & Hworkers & Hdone). auto.
Qed.

(** The final task marks the job, and only the job, completed. *)
Lemma update_task_status_completed (job : OriginalText.t) :
  texts db !! k = Some job ->
  get_text db' (S k)
  = Some (OriginalText.mk (OriginalText.id job) (OriginalText.text job) "completed").
Proof using Hwf.
  destruct update_task_status_texts as [Htexts _]. intros Hjob.
  apply (wf_get_text db' wf_db_update_task_status).
  rewrite Htexts, list_lookup_alter_eq, Hjob. reflexivity.
Qed.
End Finalize.

Lemma invariant_update_task_status (db : Database) (runs : list run)
    (k text_id : nat) (workers : list (nat * worker_state)) :
  invariant (mkSystem db runs) ->
  runs !! k = Some (mkRun text_id (Waiting workers)) ->
  Forall (fun w => snd w = Succeeded) workers ->
  invariant
    (mkSystem (Tasks.update_task_status db text_id)
       (<[k := mkRun text_id Finalized]> runs)).
Proof.
  intros (Hwf & Hlen & Hruns) Hk Hall. simpl in *.
  destruct (Hruns k _ Hk) as [Hid (Hp & Hworkers & Hdone)]. simpl in *. subst text_id.
  split; [apply wf_db_update_task_status; exact Hwf|]. split; simpl.
  - rewrite length_insert, update_first_length. exact Hlen.
  - intros k' r' Hk'. destruct (decide (k = k')) as [<-|Hne].
    + rewrite list_lookup_insert_eq in Hk' by (eapply lookup_lt_Some; eauto).
      injection Hk' as <-. split; [reflexivity|]. simpl.
      intros t Hin Htid.
      assert (Hid : Translation.id t ∈ map fst workers).
      { rewrite Hworkers. apply list_elem_of_In, in_map, filter_In.
        split; [apply list_elem_of_In; exact Hin | apply Nat.eqb_eq; exact Htid]. }
      apply list_elem_of_In, in_map_iff in Hid as ([id w] & Hfst & Hw).
      simpl in Hfst. subst id.
      assert (Hs : w = Succeeded).
      { rewrite Forall_forall in Hall. apply (Hall _ (proj2 (list_elem_of_In _ _) Hw)). }
      subst w. apply list_elem_of_In in Hw.
      destruct (Hdone _ Hw) as (t' & Ht' & Hstatus).
      rewrite (wf_get_translation db Hwf t Hin) in Ht'. congruence.
    + rewrite list_lookup_insert_ne in Hk' by exact Hne.
      apply run_ok_update_task_status; auto.
Qed.

(** Every reachable state satisfies the invariant. *)
Lemma reachable_invariant (w : worker) (s : system) :
  writes_once w -> reachable w s -> invariant s.
Proof.
  intros Hw. revert s. apply rtc_ind_r.
  - apply invariant_initial.
  - intros s s' Hrtc Hstep IH. step_cases Hstep.
    + destruct (translate_db' db text languages) as (Heq & _).
      rewrite Heq in Htr. injection Htr as <- <-.
      apply invariant_translate. exact IH.
    + apply invariant_process_translation; assumption.
    + eapply invariant_process_individual_translation; eauto.
    + eapply invariant_update_task_status; eauto.
Qed.
End InvariantFinal.

(** ** Two runs of the job "A. B." *)

Lemma spanish_failed_reachable :
  Orchestration.reachable line_worker spanish_failed.
Proof.
  unfold Orchestration.reachable, spanish_failed.
  eapply rtc_l.
  { exact (Orchestration.step_translate line_worker Crud.empty []
             ["es"; "fr"] "A. B." submitted_db 1 eq_refl). }
  eapply rtc_l.
  { exact (Orchestration.step_process_translation line_worker submitted_db
             [Orchestration.mkRun 1 Orchestration.Queued] 0 1 eq_refl). }
  eapply rtc_l.
  { exact (Orchestration.step_process_individual_translation line_worker
             submitted_db
             [Orchestration.mkRun 1
                (Orchestration.Waiting
                   [(1, Orchestration.Dispatched); (2, Orchestration.Dispatched)])]
             0 1 [(1, Orchestration.Dispatched); (2, Orchestration.Dispatched)]
             0 1 no_spanish [0] (Raise ServiceError) submitted_db
             eq_refl eq_refl eq_refl). }
  apply rtc_refl.
Qed.

Lemma one_failed_reachable : Orchestration.reachable line_worker one_failed.
Proof.
  eapply rtc_r; [apply spanish_failed_reachable|].
  exact (Orchestration.step_process_individual_translation line_worker
           submitted_db
           [Orchestration.mkRun 1
              (Orchestration.Waiting
                 [(1, Orchestration.Failed ServiceError);
                  (2, Orchestration.Dispatched)])]
           0 1 [(1, Orchestration.Failed ServiceError); (2, Orchestration.Dispatched)]
           1 2 no_spanish [0] (Ok tt)
           (fst (Crud.update_translation_fields submitted_db 2 "complete" "fr:A. B."))
           eq_refl eq_refl eq_refl).
Qed.

Lemma all_done_reachable : Orchestration.reachable line_worker all_done.
Proof.
  unfold Orchestration.reachable, all_done.
  set (db1 := fst (Crud.update_translation_fields submitted_db 1 "complete" "es:A. B.")).
  set (db2 := fst (Crud.update_translation_fields db1 2 "complete" "fr:A. B.")).
  eapply rtc_l.
  { exact (Orchestration.step_translate line_worker Crud.empty []
             ["es"; "fr"] "A. B." submitted_db 1 eq_refl). }
  eapply rtc_l.
  { exact (Orchestration.step_process_translation line_worker submitted_db
             [Orchestration.mkRun 1 Orchestration.Queued] 0 1 eq_refl). }
  eapply rtc_l.
  { exact (Orchestration.step_process_individual_translation line_worker
             submitted_db
             [Orchestration.mkRun 1
                (Orchestration.Waiting
                   [(1, Orchestration.Dispatched); (2, Orchestration.Dispatched)])]
             0 1 [(1, Orchestration.Dispatched); (2, Orchestration.Dispatched)]
             0 1 polyglot [0] (Ok tt) db1 eq_refl eq_refl eq_refl). }
  eapply rtc_l.
  { exact (Orchestration.step_process_individual_translation line_worker
             db1
             [Orchestration.mkRun 1
                (Orchestration.Waiting
                   [(1, Orchestration.Succeeded); (2, Orchestration.Dispatched)])]
             0 1 [(1, Orchestration.Succeeded); (2, Orchestration.Dispatched)]
             1 2 polyglot [0] (Ok tt) db2 eq_refl eq_refl eq_refl). }
  eapply rtc_l.
  { exact (Orchestration.step_update_task_status line_worker db2
             [Orchestration.mkRun 1
                (Orchestration.Waiting
                   [(1, Orchestration.Succeeded); (2, Orchestration.Succeeded)])]
             0 1 [(1, Orchestration.Succeeded); (2, Orchestration.Succeeded)] eq_refl
             ltac:(repeat constructor)). }
  apply rtc_refl.
Qed.

(** ** Fan-in *)

Section FanIn.
Import Crud Orchestration.
Variable w : worker.
Hypothesis Hw : writes_once w.

(** A stored job whose run has not been finalized is pending. *)
Lemma unfinalized_job_pending (s : system) (k text_id : nat) (st : run_state) :
  invariant s ->
  runs s !! k = Some (mkRun text_id st) ->
  st <> Finalized ->
  text_id = S k
  /\ exists job, texts (db s) !! k = Some job
                 /\ get_text (db s) text_id = Some job
                 /\ OriginalText.status job = "pending".
Proof.
  intros (Hwf & Hlen & Hruns) Hk Hst.
  destruct (Hruns k _ Hk) as [Hid Hstate]. simpl in Hid, Hstate. subst text_id.
  split; [reflexivity|].
  destruct (texts (db s) !! k) as [job|] eqn:Hjob.
  - exists job. split; [reflexivity|]. split; [apply wf_get_text; assumption|].
    destruct st as [|workers|]; [| |congruence].
    + apply Hstate. exact Hjob.
    + destruct Hstate as [Hp _]. apply Hp. exact Hjob.
  - apply lookup_ge_None in Hjob. apply lookup_lt_Some in Hk. lia.
Qed.

(** A completed job has a finalized run and only complete sub-jobs. *)
Lemma completed_job_finalized (s : system) (job : OriginalText.t) :
  invariant s ->
  job ∈ texts (db s) ->
  OriginalText.status job = "completed" ->
  exists k, OriginalText.id job = S k
            /\ runs s !! k = Some (mkRun (S k) Finalized)
            /\ forall t, t ∈ translations (db s) ->
                         Translation.text_id t = S k ->
                         Translation.status t = "complete".
Proof.
  intros Hinv [k Hk]%list_elem_of_lookup Hstatus.
  pose proof Hinv as (Hwf & Hlen & Hruns).
  destruct Hwf as [Hjobs _]. destruct (Hjobs k job Hk) as [Hid _].
  exists k. split; [exact Hid|].
  destruct (runs s !! k) as [[text_id st]|] eqn:Hrun.
  - destruct (Hruns k _ Hrun) as [Htid Hstate]. simpl in Htid, Hstate. subst text_id.
    destruct st as [|workers|].
    + rewrite (Hstate job Hk) in Hstatus. discriminate.
    + destruct Hstate as [Hp _]. rewrite (Hp job Hk) in Hstatus. discriminate.
    + split; [reflexivity | exact Hstate].
  - apply lookup_ge_None in Hrun. apply lookup_lt_Some in Hk. lia.
Qed.

(** The final task is enabled once every worker has succeeded, and it
    marks the job completed. *)
Lemma final_task_enabled (s : system) (k text_id : nat)
    (workers : list (nat * worker_state)) :
  invariant s ->
  runs s !! k = Some (mkRun text_id (Waiting workers)) ->
  Forall (fun w => snd w = Succeeded) workers ->
  exists s' job,
    step w s s'
    /\ get_text (db s') text_id = Some job
    /\ OriginalText.status job = "completed".
Proof.
  intros Hinv Hk Hall.
  destruct (unfinalized_job_pending s k text_id _ Hinv Hk)
    as (-> & job & Hjob & _ & _); [discriminate|].
  destruct s as [db runs]. simpl in *.
  eexists _, _. split; [eapply step_update_task_status; eauto|]. simpl.
  split; [apply update_task_status_completed; [apply Hinv | exact Hjob] | reflexivity].
Qed.

(** A failed worker stays failed, and its run stays at the fan-in. *)
Lemma failed_worker_stays (s : system) (k text_id : nat)
    (workers : list (nat * worker_state)) (i translation_id : nat) (e : exn) :
  runs s !! k = Some (mkRun text_id (Waiting workers)) ->
  workers !! i = Some (translation_id, Failed e) ->
  forall s', rtc (step w) s s' ->
    exists workers',
      runs s' !! k = Some (mkRun text_id (Waiting workers'))
      /\ workers' !! i = Some (translation_id, Failed e).
Proof.
  intros Hk Hi. apply rtc_ind_r; [eauto|].
  intros s1 s2 _ Hstep (workers1 & Hk1 & Hi1). simpl in *.
  step_cases Hstep; simpl in *.
  - exists workers1. split; [|exact Hi1]. apply lookup_app_l_Some. exact Hk1.
  - exists workers1. split; [|exact Hi1].
    rewrite list_lookup_insert_ne; [exact Hk1|]. intros ->. congruence.
  - destruct (decide (k' = k)) as [->|Hne].
    + rewrite Hk1 in Hk'. injection Hk' as <- <-.
      rewrite list_lookup_insert_eq by (eapply lookup_lt_Some; eauto).
      eexists. split; [reflexivity|].
      rewrite list_lookup_insert_ne; [exact Hi1|]. intros ->. congruence.
    + exists workers1. split; [|exact Hi1].
      rewrite list_lookup_insert_ne by exact Hne. exact Hk1.
  - exists workers1. split; [|exact Hi1].
    rewrite list_lookup_insert_ne; [exact Hk1|]. intros ->.
    rewrite Hk1 in Hk'. injection Hk' as <- <-.
    rewrite Forall_forall in Hall.
    specialize (Hall (translation_id, Failed e)
                  (proj2 (list_elem_of_lookup _ _) (ex_intro _ i Hi1))).
    discriminate.
Qed.

(** The job of a run with a failed worker is pending for ever. *)
Lemma failed_worker_blocks (s : system) (k text_id : nat)
    (workers : list (nat * worker_state)) (i translation_id : nat) (e : exn) :
  reachable w s ->
  runs s !! k = Some (mkRun text_id (Waiting workers)) ->
  workers !! i = Some (translation_id, Failed e) ->
  forall s', rtc (step w) s s' ->
    exists job, get_text (db s') text_id = Some job
                /\ OriginalText.status job = "pending".
Proof using Hw.
  intros Hreach Hk Hi s' Hrtc.
  destruct (failed_worker_stays s k text_id workers i translation_id e Hk Hi s' Hrtc)
    as (workers' & Hk' & _).
  assert (Hinv : invariant s').
  { apply (reachable_invariant w); [exact Hw|].
    unfold reachable in *. etransitivity; eauto. }
  destruct (unfinalized_job_pending s' k text_id _ Hinv Hk')
    as (_ & job & _ & Hget & Hstatus); [discriminate|].
  exists job. auto.
Qed.
End FanIn.

Lemma answers_all {A B : Type} (f : A -> result B) (xs : list A) :
  (forall x, exists y, f x = Ok y) ->
  exists ys, Forall2 (fun x y => f x = Ok y) xs ys.
Proof.
  intros Hf. induction xs as [|x xs [ys IH]].
  - exists []. constructor.
  - destruct (Hf x) as [y Hy]. exists (y :: ys). constructor; assumption.
Qed.

Section Siblings.
Import Crud Orchestration.
Variable nlp : Helpers.segmenter.

(** A dispatched worker can finish and complete its sub-job whenever the
    service answers its chunks, whatever happened to the other workers. *)
Lemma sibling_completes (s : system) (k text_id : nat)
    (workers : list (nat * worker_state)) (i translation_id : nat)
    (translate : translator) :
  invariant s ->
  runs s !! k = Some (mkRun text_id (Waiting workers)) ->
  workers !! i = Some (translation_id, Dispatched) ->
  (forall chunk language, exists out, translate chunk language = Ok out) ->
  exists s' t,
    step (Tasks.process_individual_translation nlp) s s'
    /\ get_translation (db s') translation_id = Some t
    /\ Translation.status t = "complete".
Proof.
  intros Hinv Hk Hi Hanswers. pose proof Hinv as (Hwf & _ & Hruns).
  destruct (Hruns k _ Hk) as [_ (_ & Hworkers & _)]. simpl in Hworkers.
  assert (Hin : translation_id ∈ map fst workers).
  { apply list_elem_of_In, in_map_iff. exists (translation_id, Dispatched).
    split; [reflexivity|]. apply list_elem_of_In, list_elem_of_lookup. eauto. }
  rewrite Hworkers in Hin. apply list_elem_of_In, in_map_iff in Hin as (t0 & Hid & Hin).
  apply filter_In in Hin as [Hin _]. apply list_elem_of_In in Hin.
  pose proof (wf_get_translation (db s) Hwf t0 Hin) as Hget. rewrite Hid in Hget.
  destruct (wf_job_of_translation (db s) Hwf t0 Hin) as [job Hjob].
  destruct (answers_all (fun chunk => translate chunk (Translation.language t0))
              (Helpers.split_text_into_sentence_groups nlp (OriginalText.text job)))
    as [translated Hok]; [intros chunk; apply Hanswers|].
  pose proof (worker_succeeds nlp translate
                (seq 0 (length (Helpers.split_text_into_sentence_groups nlp
                                  (OriginalText.text job))))
                (db s) translation_id t0 job translated Hget Hjob Hok) as Hrun.
  destruct s as [db runs]. simpl in *.
  eexists _, _. split.
  - eapply step_process_individual_translation; eauto. apply Hrun.
    intros j Hj. apply list_elem_of_In, in_seq. lia.
  - simpl. split; [apply get_translation_update_same; exact Hget | reflexivity].
Qed.
End Siblings.

(** C4. In every reachable state of the orchestration, with the worker of
    tasks.py or of tasks_async.py, a job whose status is [completed] has no
    sub-job whose status is [pending]: its sub-jobs are all [complete], and
    its run has gone through the final task, which is only taken when every
    dispatched worker has succeeded. *)
Theorem fan_in_completeness (nlp : Helpers.segmenter) (w : Orchestration.worker)
    (s : Orchestration.system) (job : OriginalText.t) (t : Translation.t) :
  Orchestration.worker_of nlp w ->
  Orchestration.reachable w s ->
  job ∈ Crud.texts (Orchestration.db s) ->
  OriginalText.status job = "completed" ->
  t ∈ Crud.translations (Orchestration.db s) ->
  Translation.text_id t = OriginalText.id job ->
  Translation.status t = "complete"
  /\ Translation.status t <> "pending"
  /\ exists k, OriginalText.id job = S k
               /\ Orchestration.runs s !! k
                  = Some (Orchestration.mkRun (S k) Orchestration.Finalized).
Proof.
  intros Hw Hreach Hjob Hstatus Ht Htid.
  apply reachable_invariant in Hreach; [|eapply worker_of_writes_once; eauto].
  destruct (completed_job_finalized s job Hreach Hjob Hstatus) as (k & Hid & Hrun & Hall).
  assert (Hc : Translation.status t = "complete") by (apply Hall; [assumption | congruence]).
  split; [exact Hc|]. split; [rewrite Hc; discriminate | eauto].
Qed.

Lemma fan_in_completeness_witness :
  let job := OriginalText.mk 1 "A. B." "completed" in
  let t := Translation.mk 2 1 "complete" "fr" (Some "fr:A. B.") in
  Translation.status t = "complete"
  /\ Translation.status t <> "pending"
  /\ exists k, OriginalText.id job = S k
               /\ Orchestration.runs all_done !! k
                  = Some (Orchestration.mkRun (S k) Orchestration.Finalized).
Proof.
  intros job t.
  apply (fan_in_completeness sentences_by_line line_worker all_done job t).
  - apply Orchestration.worker_of_tasks.
  - apply all_done_reachable.
  - apply list_elem_of_In. left. reflexivity.
  - reflexivity.
  - apply list_elem_of_In. right. left. reflexivity.
  - reflexivity.
Defined.

(** The final task can only be taken by a run whose workers have all
    succeeded, and it is the only transition that completes a job. *)
Lemma completed_only_by_final_task (w : Orchestration.worker)
    (s s' : Orchestration.system) (text_id : nat) (job job' : OriginalText.t) :
  Orchestration.writes_once w ->
  Orchestration.step w s s' ->
  Crud.get_text (Orchestration.db s) text_id = Some job ->
  OriginalText.status job = "pending" ->
  Crud.get_text (Orchestration.db s') text_id = Some job' ->
  OriginalText.status job' = "completed" ->
  exists k workers,
    Orchestration.runs s !! k
    = Some (Orchestration.mkRun text_id (Orchestration.Waiting workers))
    /\ Forall (fun w => snd w = Orchestration.Succeeded) workers.
Proof.
  intros Hw Hstep Hjob Hpending Hjob' Hcompleted.
  step_cases Hstep; simpl in *.
  - destruct (translate_db' db text languages) as (_ & Htexts & _).
    assert (Hdb : db' = fst (Main.translate db languages text))
      by (rewrite Htr; reflexivity).
    unfold Crud.get_text in Hjob'. rewrite Hdb, Htexts in Hjob'.
    rewrite (find_app_l _ _ _ _ Hjob) in Hjob'. congruence.
  - congruence.
  - assert (Htexts : Crud.texts db' = Crud.texts db).
    { apply Hw in Hrun. destruct r as [[]|e].
      - destruct Hrun as (t & content & _ & ->).
        apply texts_update_translation_fields.
      - subst db'. reflexivity. }
    unfold Crud.get_text in *. rewrite Htexts in Hjob'. congruence.
  - destruct (decide (text_id' = text_id)) as [->|Hne]; [eauto|].
    exfalso. unfold Tasks.update_task_status, Crud.update_text_status, Crud.get_text in Hjob'.
    simpl in Hjob'. rewrite find_update_first_other in Hjob'.
    + unfold Crud.get_text in Hjob. congruence.
    + reflexivity.
    + intros r0 Hr0. apply Nat.eqb_eq in Hr0. apply Nat.eqb_neq. congruence.
Qed.

(** C5, as stated, at the job "A. B." with the languages Spanish and French,
    when the service fails for Spanish: both workers have finished, the
    French sub-job is complete, the Spanish sub-job is still pending, and in
    no later state is the job completed. *)
Lemma completion_despite_failure_counterexample :
  Orchestration.reachable line_worker one_failed
  /\ Orchestration.runs one_failed
     = [Orchestration.mkRun 1
          (Orchestration.Waiting
             [(1, Orchestration.Failed ServiceError); (2, Orchestration.Succeeded)])]
  /\ option_map Translation.status (Crud.get_translation (Orchestration.db one_failed) 1)
     = Some "pending"
  /\ option_map Translation.status (Crud.get_translation (Orchestration.db one_failed) 2)
     = Some "complete"
  /\ (forall s',
        rtc (Orchestration.step line_worker) one_failed s' ->
        option_map OriginalText.status (Crud.get_text (Orchestration.db s') 1)
        = Some "pending").
Proof.
  split; [apply one_failed_reachable|]. split; [reflexivity|].
  split; [reflexivity|]. split; [reflexivity|].
  intros s' Hrtc.
  destruct (failed_worker_blocks line_worker (tasks_writes_once sentences_by_line)
              one_failed 0 1
              [(1, Orchestration.Failed ServiceError); (2, Orchestration.Succeeded)]
              0 1 ServiceError one_failed_reachable eq_refl eq_refl s' Hrtc)
    as (job & -> & Hstatus).
  simpl. rewrite Hstatus. reflexivity.
Qed.

(** C5, amended. For a run at its fan-in in a reachable state, with the
    worker of tasks.py or of tasks_async.py: once every worker has succeeded
    the final task can run, and it writes the status [completed] to the job;
    once a worker has failed the job is [pending] in every later state; and
    in tasks.py a worker that is still running can complete its own sub-job
    whenever the service answers its chunks, whatever happened to the
    workers of the other languages. *)
Theorem completion_after_fan_in (nlp : Helpers.segmenter) (w : Orchestration.worker)
    (s : Orchestration.system) (k text_id : nat)
    (workers : list (nat * Orchestration.worker_state)) :
  Orchestration.worker_of nlp w ->
  Orchestration.reachable w s ->
  Orchestration.runs s !! k
    = Some (Orchestration.mkRun text_id (Orchestration.Waiting workers)) ->
  (Forall (fun w => snd w = Orchestration.Succeeded) workers ->
   exists s' job,
     Orchestration.step w s s'
     /\ Crud.get_text (Orchestration.db s') text_id = Some job
     /\ OriginalText.status job = "completed")
  /\ (forall i translation_id e,
        workers !! i = Some (translation_id, Orchestration.Failed e) ->
        forall s', rtc (Orchestration.step w) s s' ->
          exists job, Crud.get_text (Orchestration.db s') text_id = Some job
                      /\ OriginalText.status job = "pending")
  /\ (forall i translation_id (translate : translator),
        w = Tasks.process_individual_translation nlp ->
        workers !! i = Some (translation_id, Orchestration.Dispatched) ->
        (forall chunk language, exists out, translate chunk language = Ok out) ->
        exists s' t,
          Orchestration.step w s s'
          /\ Crud.get_translation (Orchestration.db s') translation_id = Some t
          /\ Translation.status t = "complete").
Proof.
  intros Hwof Hreach Hk.
  pose proof (worker_of_writes_once nlp w Hwof) as Hw.
  pose proof (reachable_invariant w s Hw Hreach) as Hinv.
  split; [|split].
  - intros Hall. eapply final_task_enabled; eauto.
  - intros i translation_id e Hi. eapply failed_worker_blocks; eauto.
  - intros i translation_id translate -> Hi Hanswers. eapply sibling_completes; eauto.
Qed.

Lemma completion_after_fan_in_witness :
  let workers :=
    [(1, Orchestration.Failed ServiceError); (2, Orchestration.Dispatched)] in
  (Forall (fun w => snd w = Orchestration.Succeeded) workers ->
   exists s' job,
     Orchestration.step line_worker spanish_failed s'
     /\ Crud.get_text (Orchestration.db s') 1 = Some job
     /\ OriginalText.status job = "completed")
  /\ (forall i translation_id e,
        workers !! i = Some (translation_id, Orchestration.Failed e) ->
        forall s', rtc (Orchestration.step line_worker) spanish_failed s' ->
          exists job, Crud.get_text (Orchestration.db s') 1 = Some job
                      /\ OriginalText.status job = "pending")
  /\ (forall i translation_id (translate : translator),
        line_worker = Tasks.process_individual_translation sentences_by_line ->
        workers !! i = Some (translation_id, Orchestration.Dispatched) ->
        (forall chunk language, exists out, translate chunk language = Ok out) ->
        exists s' t,
          Orchestration.step line_worker spanish_failed s'
          /\ Crud.get_translation (Orchestration.db s') translation_id = Some t
          /\ Translation.status t = "complete").
Proof.
  intros workers.
  apply (completion_after_fan_in sentences_by_line line_worker spanish_failed 0 1
           workers).
  - apply Orchestration.worker_of_tasks.
  - apply spanish_failed_reachable.
  - reflexivity.
Defined.

(** With the service answering every language the job is completed. *)
Example all_done_completed :
  option_map OriginalText.status (Crud.get_text (Orchestration.db all_done) 1)
  = Some "completed"
  /\ map Translation.status (Crud.get_translations_for_text (Orchestration.db all_done) 1)
     = ["complete"; "complete"]
  /\ map Translation.translated_content
       (Crud.get_translations_for_text (Orchestration.db all_done) 1)
     = [Some "es:A. B."; Some "fr:A. B."].
Proof. repeat split. Qed.

(** Polling it then answers with the two translations. *)
Example poll_all_done :
  Main.get_translate (Orchestration.db all_done) 1
  = Ok (Main.Translations
          (TextTranslationsSchema.mk 1 "A. B."
             [Translation.mk 1 1 "complete" "es" (Some "es:A. B.");
              Translation.mk 2 1 "complete" "fr" (Some "fr:A. B.")])).
Proof. reflexivity. Qed.

(** While the Spanish worker has failed, polling answers "in progress". *)
Example poll_one_failed :
  Main.get_translate (Orchestration.db one_failed) 1 = Ok Main.InProgress.
Proof. reflexivity. Qed.

(** * Further properties *)

(** ** helpers.py: the chunks *)

Lemma partition_length (limit : nat) (groups : list (list string)) :
  1 <= limit ->
  Forall (fun g => 1 <= length g <= limit) groups ->
  (forall i g, groups !! i = Some g -> S i < length groups -> length g = limit) ->
  exists short,
    short < limit
    /\ length (concat groups) + short = length groups * limit.
Proof.
  intros Hlimit. induction groups as [|g0 rest IH]; intros Hall Hfull.
  - exists 0. simpl. split; [lia | reflexivity].
  - apply Forall_cons in Hall as [Hg0 Hall]. destruct rest as [|g1 rest].
    + exists (limit - length g0). simpl. rewrite app_nil_r. lia.
    + assert (Hlen0 : length g0 = limit) by (apply (Hfull 0 g0); [reflexivity | simpl; lia]).
      destruct IH as (short & Hshort & Hsum); [assumption| |].
      * intros j g' Hj Hlt. apply (Hfull (S j)); auto. simpl in *. lia.
      * exists short. split; [exact Hshort|].
        change (concat (g0 :: g1 :: rest)) with (g0 ++ concat (g1 :: rest)).
        rewrite length_app. simpl length in *. lia.
Qed.

Lemma group_sentences_length (limit : nat) (sents : list string) :
  1 <= limit ->
  length (Helpers.group_sentences limit sents) = (length sents + (limit - 1)) / limit.
Proof.
  intros Hlimit.
  destruct (group_sentences_groups limit Hlimit sents) as (groups & Heq & Hcat & Hall & Hfull).
  destruct (partition_length limit groups Hlimit Hall Hfull) as (short & Hshort & Hsum).
  rewrite Heq, length_map, <- Hcat.
  apply (Nat.div_unique _ _ _ (limit - 1 - short)); lia.
Qed.

(** X1. The number of chunks of a text is the number of its sentences
    divided by 20 and rounded up. *)
Theorem chunk_count (nlp : Helpers.segmenter) (text : string) :
  length (Helpers.split_text_into_sentence_groups nlp text)
  = (length (nlp text) + 19) / 20.
Proof.
  unfold Helpers.split_text_into_sentence_groups.
  rewrite group_sentences_length by lia. reflexivity.
Qed.

Lemma group_sentences_join (limit : nat) (sents : list string) :
  1 <= limit ->
  join " " (Helpers.group_sentences limit sents) = join " " sents.
Proof.
  intros Hlimit.
  destruct (group_sentences_groups limit Hlimit sents) as (groups & Heq & Hcat & Hall & _).
  rewrite Heq, join_concat, Hcat; [reflexivity|].
  eapply Forall_impl; [exact Hall|]. simpl.
  intros [|] Hg; [simpl in Hg; lia | discriminate].
Qed.

(** X2. Chunking loses and reorders nothing: the chunks of a text, joined
    with single spaces, are the sentences of the text joined with single
    spaces. *)
Theorem chunks_keep_text (nlp : Helpers.segmenter) (text : string) :
  join " " (Helpers.split_text_into_sentence_groups nlp text) = join " " (nlp text).
Proof.
  unfold Helpers.split_text_into_sentence_groups.
  apply group_sentences_join. lia.
Qed.

(** ** crud.py: rows and lookups *)

Lemma find_app_r {A : Type} (p : A -> bool) (l1 l2 : list A) :
  List.find p l1 = None -> List.find p (l1 ++ l2) = List.find p l2.
Proof.
  induction l1 as [|a l1 IH]; simpl; [reflexivity|].
  destruct (p a); [discriminate | exact IH].
Qed.

Lemma update_first_absent {A : Type} (p : A -> bool) (f : A -> A) (rows : list A) :
  List.find p rows = None -> Crud.update_first p f rows = rows.
Proof.
  induction rows as [|r rows IH]; simpl; [reflexivity|].
  destruct (p r); [discriminate|]. intros H. rewrite IH by exact H. reflexivity.
Qed.

Lemma update_first_twice {A : Type} (p : A -> bool) (f g : A -> A) (rows : list A) :
  (forall r, p (f r) = p r) ->
  (forall r, g (f r) = g r) ->
  Crud.update_first p g (Crud.update_first p f rows) = Crud.update_first p g rows.
Proof.
  intros Hp Hg. induction rows as [|r rows IH]; simpl; [reflexivity|].
  destruct (p r) eqn:E; simpl.
  - rewrite Hp, E, Hg. reflexivity.
  - rewrite E, IH. reflexivity.
Qed.

Section FreshIds.
Import Crud Orchestration.
Variable db : Database.
Hypothesis Hwf : wf_db db.

(** The next id of either table is not in use. *)
Lemma next_text_id_fresh : get_text db (S (length (texts db))) = None.
Proof using Hwf.
  unfold get_text. apply find_absent. intros r [i Hi]%list_elem_of_lookup.
  destruct Hwf as [Hjobs _]. destruct (Hjobs i r Hi) as [-> _].
  apply lookup_lt_Some in Hi. apply Nat.eqb_neq. lia.
Qed.

Lemma next_translation_id_fresh :
  get_translation db (S (length (translations db))) = None.
Proof using Hwf.
  unfold get_translation. apply find_absent. intros r [i Hi]%list_elem_of_lookup.
  destruct Hwf as [_ Hsubs]. destruct (Hsubs i r Hi) as [-> _].
  apply lookup_lt_Some in Hi. apply Nat.eqb_neq. lia.
Qed.

(** No stored sub-job belongs to the job that will be created next. *)
Lemma next_job_no_translations :
  get_translations_for_text db (S (length (texts db))) = [].
Proof using Hwf.
  unfold get_translations_for_text. apply filter_none.
  intros r [i Hi]%list_elem_of_lookup. destruct Hwf as [_ Hsubs].
  destruct (Hsubs i r Hi) as [_ Hrange]. apply Nat.eqb_neq. lia.
Qed.
End FreshIds.

(** Looking up in a table that got one more row at its end. *)
Lemma find_snoc {A : Type} (key : A -> nat) (rows : list A) (row : A) (k : nat) :
  List.find (fun r => Nat.eqb (key r) (key row)) rows = None ->
  List.find (fun r => Nat.eqb (key r) k) (rows ++ [row])
  = if Nat.eqb k (key row) then Some row
    else List.find (fun r => Nat.eqb (key r) k) rows.
Proof.
  intros Hfresh. destruct (Nat.eqb k (key row)) eqn:E.
  - apply Nat.eqb_eq in E. subst k. rewrite find_app_r by exact Hfresh.
    simpl. rewrite Nat.eqb_refl. reflexivity.
  - destruct (List.find (fun r => Nat.eqb (key r) k) rows) as [r|] eqn:F.
    + apply find_app_l. exact F.
    + rewrite find_app_r by exact F. simpl.
      rewrite Nat.eqb_sym, E. reflexivity.
Qed.

(** X3. In a database whose ids are those of its autoincrement keys,
    [create_text] stores a pending row under an id that was not in use:
    [get_text] finds the new row under its id, and finds under every other
    id what it found before; the sub-jobs are untouched. *)
Theorem create_text_get_text (db : Crud.Database) (text : string) (text_id : nat) :
  Orchestration.wf_db db ->
  Crud.get_text db (OriginalText.id (snd (Crud.create_text db text))) = None
  /\ OriginalText.status (snd (Crud.create_text db text)) = "pending"
  /\ Crud.get_text (fst (Crud.create_text db text)) text_id
     = (if Nat.eqb text_id (OriginalText.id (snd (Crud.create_text db text)))
        then Some (snd (Crud.create_text db text))
        else Crud.get_text db text_id)
  /\ Crud.translations (fst (Crud.create_text db text)) = Crud.translations db.
Proof.
  intros Hwf. pose proof (next_text_id_fresh db Hwf) as Hfresh. simpl.
  split; [exact Hfresh|]. split; [reflexivity|]. split; [|reflexivity].
  unfold Crud.get_text in *. simpl.
  apply (find_snoc OriginalText.id (Crud.texts db)
           (OriginalText.mk (S (length (Crud.texts db))) text "pending")).
  exact Hfresh.
Qed.

Lemma create_text_get_text_witness :
  Crud.get_text Crud.empty (OriginalText.id (snd (Crud.create_text Crud.empty "A. B.")))
  = None
  /\ OriginalText.status (snd (Crud.create_text Crud.empty "A. B.")) = "pending"
  /\ Crud.get_text (fst (Crud.create_text Crud.empty "A. B.")) 1
     = (if Nat.eqb 1 (OriginalText.id (snd (Crud.create_text Crud.empty "A. B.")))
        then Some (snd (Crud.create_text Crud.empty "A. B."))
        else Crud.get_text Crud.empty 1)
  /\ Crud.translations (fst (Crud.create_text Crud.empty "A. B."))
     = Crud.translations Crud.empty.
Proof.
  apply (create_text_get_text Crud.empty "A. B." 1).
  split; intros i x Hi; discriminate.
Defined.

(** X4. In such a database [create_translation] stores its row, without
    content, under an id that was not in use: [get_translation] finds the new
    row under its id and finds under every other id what it found before,
    and [get_translations_for_text] lists the new row last among the
    sub-jobs of its job and lists the sub-jobs of every other job as
    before. *)
Theorem create_translation_lookups (db : Crud.Database)
    (translation : TranslationInSchema.t) (id text_id : nat) :
  Orchestration.wf_db db ->
  let db' := fst (Crud.create_translation db translation) in
  let row := snd (Crud.create_translation db translation) in
  Crud.get_translation db (Translation.id row) = None
  /\ Translation.translated_content row = None
  /\ Crud.get_translation db' id
     = (if Nat.eqb id (Translation.id row) then Some row
        else Crud.get_translation db id)
  /\ Crud.get_translations_for_text db' text_id
     = Crud.get_translations_for_text db text_id
       ++ (if Nat.eqb (TranslationInSchema.text_id translation) text_id
           then [row] else [])
  /\ Crud.texts db' = Crud.texts db.
Proof.
  intros Hwf db' row. pose proof (next_translation_id_fresh db Hwf) as Hfresh.
  split; [exact Hfresh|]. split; [reflexivity|]. split; [|split; [|reflexivity]].
  - unfold Crud.get_translation in *. subst db' row. simpl.
    apply (find_snoc Translation.id (Crud.translations db)). exact Hfresh.
  - unfold Crud.get_translations_for_text. subst db' row. simpl.
    rewrite List.filter_app. simpl.
    destruct (Nat.eqb (TranslationInSchema.text_id translation) text_id); reflexivity.
Qed.

Lemma create_translation_lookups_witness :
  let db := fst (Crud.create_text Crud.empty "A. B.") in
  let translation := TranslationInSchema.mk 1 "es" "pending" in
  let db' := fst (Crud.create_translation db translation) in
  let row := snd (Crud.create_translation db translation) in
  Crud.get_translation db (Translation.id row) = None
  /\ Translation.translated_content row = None
  /\ Crud.get_translation db' 1
     = (if Nat.eqb 1 (Translation.id row) then Some row
        else Crud.get_translation db 1)
  /\ Crud.get_translations_for_text db' 1
     = Crud.get_translations_for_text db 1
       ++ (if Nat.eqb (TranslationInSchema.text_id translation) 1
           then [row] else [])
  /\ Crud.texts db' = Crud.texts db.
Proof.
  intros db translation.
  apply (create_translation_lookups db translation 1 1).
  split; intros i x Hi.
  - destruct i as [|i]; [|discriminate]. injection Hi as <-. simpl. auto.
  - discriminate.
Defined.

(** X5. [update_text_status] changes the status of the job with the given
    id and nothing else: under that id [get_text] then finds the same row
    with the new status, under every other id it finds what it found before,
    and the sub-jobs are untouched; when no job has the id, the database is
    left as it was. *)
Theorem update_text_status_lookups (db : Crud.Database) (text_id : nat)
    (new_status : string) (other : nat) :
  Crud.get_text (Crud.update_text_status db text_id new_status) other
  = (if Nat.eqb other text_id
     then option_map
            (fun job => OriginalText.mk (OriginalText.id job) (OriginalText.text job)
                          new_status)
            (Crud.get_text db text_id)
     else Crud.get_text db other)
  /\ Crud.translations (Crud.update_text_status db text_id new_status)
     = Crud.translations db
  /\ (Crud.get_text db text_id = None ->
      Crud.update_text_status db text_id new_status = db).
Proof.
  split; [|split; [reflexivity|]].
  - unfold Crud.get_text, Crud.update_text_status. simpl.
    destruct (Nat.eqb other text_id) eqn:E.
    + apply Nat.eqb_eq in E. subst other.
      apply find_update_first_same. reflexivity.
    + apply find_update_first_other; [reflexivity|].
      intros r Hr. apply Nat.eqb_eq in Hr. apply Nat.eqb_neq in E.
      apply Nat.eqb_neq. congruence.
  - intros Hnone. unfold Crud.update_text_status.
    rewrite update_first_absent by exact Hnone. destruct db; reflexivity.
Qed.

(** X6. The last [update_text_status] of a job wins: writing a status and
    then another one leaves the database that writing the second one alone
    leaves; in particular writing the same status twice is writing it
    once. *)
Theorem update_text_status_last_wins (db : Crud.Database) (text_id : nat)
    (first second : string) :
  Crud.update_text_status (Crud.update_text_status db text_id first) text_id second
  = Crud.update_text_status db text_id second.
Proof.
  unfold Crud.update_text_status. simpl. f_equal.
  apply update_first_twice; reflexivity.
Qed.


(** ** crud.py and main.py: submitting and polling *)

Section SubmitFacts.
Import Crud Orchestration.
Variables (db : Database) (t : string) (L : list string).
Hypothesis Hwf : wf_db db.

Let db' : Database := fst (Main.translate db L t).
Let job : OriginalText.t := OriginalText.mk (S (length (texts db))) t "pending".

Lemma translate_get_text (text_id : nat) :
  get_text db' text_id
  = if Nat.eqb text_id (OriginalText.id job) then Some job else get_text db text_id.
Proof using Hwf.
  destruct (translate_db' db t L) as (_ & Htexts & _).
  unfold get_text. fold db' in Htexts. rewrite Htexts.
  apply (find_snoc OriginalText.id (texts db) job).
  apply (next_text_id_fresh db Hwf).
Qed.

Lemma translate_get_translations_for_text (text_id : nat) :
  get_translations_for_text db' text_id
  = if Nat.eqb text_id (OriginalText.id job)
    then imap (fun i language =>
                 Translation.mk (S (length (translations db) + i)) (OriginalText.id job)
                   "pending" language None) L
    else get_translations_for_text db text_id.
Proof using Hwf.
  destruct (translate_db' db t L) as (_ & _ & Htrans). fold db' in Htrans.
  unfold get_translations_for_text. rewrite Htrans, List.filter_app.
  destruct (Nat.eqb text_id (OriginalText.id job)) eqn:E.
  - apply Nat.eqb_eq in E. subst text_id.
    pose proof (next_job_no_translations db Hwf) as Hnone.
    unfold get_translations_for_text in Hnone. simpl. rewrite Hnone. simpl.
    apply forallb_filter_id. apply forallb_forall.
    intros r Hr. apply list_elem_of_In in Hr.
    apply (new_translation_text_id db L) in Hr. apply Nat.eqb_eq. exact Hr.
  - rewrite (filter_none _ (imap _ _)); [apply app_nil_r|].
    intros r Hr. apply (new_translation_text_id db L) in Hr.
    apply Nat.eqb_neq in E. apply Nat.eqb_neq. simpl in E. congruence.
Qed.
End SubmitFacts.

(** X8. After [create_translation_task] on a database whose ids are those
    of its autoincrement keys, the new job is found under its id, the
    sub-jobs listed for it are exactly one pending sub-job without content
    per requested language, in the order of the request, and every other id
    finds the job and lists the sub-jobs it did before. *)
Theorem create_translation_task_lookups (db : Crud.Database) (t : string)
    (L : list string) (text_id : nat) :
  Orchestration.wf_db db ->
  let db' := fst (Crud.create_translation_task db (TranslationRequestSchema.mk t L)) in
  let job := snd (Crud.create_translation_task db (TranslationRequestSchema.mk t L)) in
  Orchestration.wf_db db'
  /\ Crud.get_text db' (OriginalText.id job) = Some job
  /\ Crud.get_translations_for_text db' (OriginalText.id job)
     = imap (fun i language =>
               Translation.mk (S (length (Crud.translations db) + i))
                 (OriginalText.id job) "pending" language None) L
  /\ (text_id <> OriginalText.id job ->
      Crud.get_text db' text_id = Crud.get_text db text_id
      /\ Crud.get_translations_for_text db' text_id
         = Crud.get_translations_for_text db text_id).
Proof.
  intros Hwf. rewrite create_translation_task_rows. simpl.
  pose proof (wf_db_translate db t L Hwf) as Hwf'.
  pose proof (translate_get_text db t L Hwf) as Hget.
  pose proof (translate_get_translations_for_text db t L Hwf) as Hlist.
  unfold Main.translate in Hwf', Hget, Hlist.
  rewrite create_translation_task_rows in Hwf', Hget, Hlist. simpl in Hwf', Hget, Hlist.
  split; [exact Hwf'|]. split; [|split].
  - rewrite Hget, Nat.eqb_refl. reflexivity.
  - rewrite Hlist, Nat.eqb_refl. reflexivity.
  - intros Hne. apply Nat.eqb_neq in Hne. rewrite Hget, Hlist, Hne. auto.
Qed.

Lemma create_translation_task_lookups_witness :
  let db := submitted_db in
  let db' :=
    fst (Crud.create_translation_task db (TranslationRequestSchema.mk "C." ["de"])) in
  let job :=
    snd (Crud.create_translation_task db (TranslationRequestSchema.mk "C." ["de"])) in
  Orchestration.wf_db db'
  /\ Crud.get_text db' (OriginalText.id job) = Some job
  /\ Crud.get_translations_for_text db' (OriginalText.id job)
     = imap (fun i language =>
               Translation.mk (S (length (Crud.translations db) + i))
                 (OriginalText.id job) "pending" language None) ["de"]
  /\ (1 <> OriginalText.id job ->
      Crud.get_text db' 1 = Crud.get_text db 1
      /\ Crud.get_translations_for_text db' 1 = Crud.get_translations_for_text db 1).
Proof.
  intros db.
  apply (create_translation_task_lookups db "C." ["de"] 1).
  apply (wf_db_translate Crud.empty "A. B." ["es"; "fr"]).
  split; intros i x Hi; discriminate.
Defined.

(** X9. A job that has just been submitted is in progress: polling the id
    that [POST /translate] returned answers "in progress", and polling any
    other id answers what it answered before the submission. *)
Theorem poll_after_submit (db : Crud.Database) (languages : list string)
    (text : string) (task_id : nat) :
  Orchestration.wf_db db ->
  Main.get_translate (fst (Main.translate db languages text))
    (snd (Main.translate db languages text))
  = Ok Main.InProgress
  /\ (task_id <> snd (Main.translate db languages text) ->
      Main.get_translate (fst (Main.translate db languages text)) task_id
      = Main.get_translate db task_id).
Proof.
  intros Hwf.
  pose proof (translate_get_text db text languages Hwf) as Hget.
  pose proof (translate_get_translations_for_text db text languages Hwf) as Hlist.
  destruct (translate_db' db text languages) as (Heq & _ & _).
  rewrite Heq. simpl snd. simpl fst in *. split.
  - unfold Main.get_translate. rewrite Hget. simpl. rewrite Nat.eqb_refl. reflexivity.
  - intros Hne. apply Nat.eqb_neq in Hne. unfold Main.get_translate.
    rewrite Hget, Hlist. simpl. rewrite Hne. reflexivity.
Qed.

Lemma poll_after_submit_witness :
  Main.get_translate (fst (Main.translate submitted_db ["de"] "C."))
    (snd (Main.translate submitted_db ["de"] "C."))
  = Ok Main.InProgress
  /\ (1 <> snd (Main.translate submitted_db ["de"] "C.") ->
      Main.get_translate (fst (Main.translate submitted_db ["de"] "C.")) 1
      = Main.get_translate submitted_db 1).
Proof.
  apply (poll_after_submit submitted_db ["de"] "C." 1).
  apply (wf_db_translate Crud.empty "A. B." ["es"; "fr"]).
  split; intros i x Hi; discriminate.
Defined.

(** ** tasks.py and tasks_async.py: the worker *)



(** X11. The worker of tasks.py completes all or nothing: when the
    translation of one chunk raises, no run of the worker succeeds, and
    whatever run returns has written nothing, also when the other chunks
    were translated. *)
Theorem worker_all_or_nothing (nlp : Helpers.segmenter) (translate : translator)
    (completion : list nat) (db : Crud.Database) (translation_id : nat)
    (translation : Translation.t) (text : OriginalText.t) (chunk : string) (e : exn)
    (r : result unit) (db' : Crud.Database) :
  Crud.get_translation db translation_id = Some translation ->
  Crud.get_text db (Translation.text_id translation) = Some text ->
  chunk ∈ Helpers.split_text_into_sentence_groups nlp (OriginalText.text text) ->
  translate chunk (Translation.language translation) = Raise e ->
  Tasks.process_individual_translation nlp translate completion db translation_id
    = Some (r, db') ->
  (exists e', r = Raise e') /\ db' = db.
Proof.
  intros Ht Htext Hin Hraise Hrun. destruct r as [[]|e'].
  - exfalso. apply worker_Ok in Hrun as (t' & text' & translated & Ht' & Htext' & Hok & _).
    rewrite Ht in Ht'. injection Ht' as <-. rewrite Htext in Htext'.
    injection Htext' as <-.
    apply list_elem_of_lookup in Hin as [j Hj].
    destruct (Forall2_lookup_l _ _ _ _ _ Hok Hj) as (out & _ & Hout). congruence.
  - split; [eauto|]. eapply worker_Raise; eauto.
Qed.

Lemma worker_all_or_nothing_witness :
  (exists e', Raise ServiceError = Raise (A := unit) e') /\ submitted_db = submitted_db.
Proof.
  apply (worker_all_or_nothing sentences_by_line no_spanish [0] submitted_db 1
           (Translation.mk 1 1 "pending" "es" None)
           (OriginalText.mk 1 "A. B." "pending") "A. B." ServiceError
           (Raise ServiceError) submitted_db).
  - reflexivity.
  - reflexivity.
  - apply list_elem_of_In. left. reflexivity.
  - reflexivity.
  - reflexivity.
Defined.

Lemma collect_all_finished {A B : Type} (f : A -> result B) (xs : list A) :
  exists r, collect (map (fun x => Some (f x)) xs) = Some r.
Proof.
  induction xs as [|x xs [r IH]]; simpl; [eauto|].
  destruct (f x); [|eauto]. rewrite IH. destruct r; eauto.
Qed.

(** X12. The order in which the chunk calls finish does not matter: two
    runs of the worker of tasks.py in which every chunk call has finished
    return, and return the same result and the same database, the service
    answering alike. *)
Theorem worker_schedule_independent (nlp : Helpers.segmenter) (translate : translator)
    (completion completion' : list nat) (db : Crud.Database) (translation_id : nat)
    (translation : Translation.t) (text : OriginalText.t) :
  Crud.get_translation db translation_id = Some translation ->
  Crud.get_text db (Translation.text_id translation) = Some text ->
  (forall j,
     j < length (Helpers.split_text_into_sentence_groups nlp (OriginalText.text text)) ->
     j ∈ completion /\ j ∈ completion') ->
  exists out,
    Tasks.process_individual_translation nlp translate completion db translation_id
      = Some out
    /\ Tasks.process_individual_translation nlp translate completion' db translation_id
       = Some out.
Proof.
  intros Ht Htext Hall. unfold Tasks.process_individual_translation.
  rewrite Ht, Htext. unfold executor_map.
  rewrite !run_calls_all by (intros j Hj; apply Hall; exact Hj).
  destruct (collect_all_finished
              (fun chunk => translate chunk (Translation.language translation))
              (Helpers.split_text_into_sentence_groups nlp (OriginalText.text text)))
    as [r ->].
  destruct r; eauto.
Qed.

Lemma worker_schedule_independent_witness :
  let db := fst (Main.translate Crud.empty ["es"] (lines (replicate 45 "Go."))) in
  exists out,
    Tasks.process_individual_translation sentences_by_line polyglot [2; 0; 1] db 1
      = Some out
    /\ Tasks.process_individual_translation sentences_by_line polyglot [0; 1; 2] db 1
       = Some out.
Proof.
  intros db.
  apply (worker_schedule_independent sentences_by_line polyglot [2; 0; 1] [0; 1; 2] db 1
           (Translation.mk 1 1 "pending" "es" None)
           (OriginalText.mk 1 (lines (replicate 45 "Go.")) "pending")).
  - reflexivity.
  - reflexivity.
  - intros j Hj. vm_compute in Hj.
    assert (Hcases : j = 0 \/ j = 1 \/ j = 2) by lia.
    destruct Hcases as [-> | [-> | ->]]; split; apply list_elem_of_In; simpl; auto.
Defined.

(** Writes to different rows commute. *)
Lemma update_first_comm {A : Type} (p q : A -> bool) (f g : A -> A) (rows : list A) :
  (forall r, p r = true -> q r = false) ->
  (forall r, q (f r) = q r) ->
  (forall r, p (g r) = p r) ->
  Crud.update_first p f (Crud.update_first q g rows)
  = Crud.update_first q g (Crud.update_first p f rows).
Proof.
  intros Hpq Hf Hg. induction rows as [|r rows IH]; simpl; [reflexivity|].
  destruct (p r) eqn:Ep.
  - rewrite (Hpq r Ep). simpl. rewrite Ep, Hf, (Hpq r Ep). reflexivity.
  - destruct (q r) eqn:Eqr; simpl.
    + rewrite Hg, Ep, Eqr. reflexivity.
    + rewrite Ep, Eqr, IH. reflexivity.
Qed.

Section Commute.
Import Crud.

(** The write of the worker, as an update of the table. *)
Lemma update_translation_fields_db (db : Database) (id : nat) (status content : string) :
  fst (update_translation_fields db id status content)
  = mkDatabase (texts db)
      (update_first (fun r => Nat.eqb (Translation.id r) id)
         (fun r => Translation.mk (Translation.id r) (Translation.text_id r) status
                     (Translation.language r) (Some content))
         (translations db)).
Proof.
  unfold update_translation_fields.
  destruct (get_translation db id) eqn:Hget; [reflexivity|].
  simpl. unfold get_translation in Hget.
  rewrite update_first_absent by exact Hget. destruct db; reflexivity.
Qed.

Lemma update_translation_fields_comm (db : Database) (a b : nat)
    (sa ca sb cb : string) :
  a <> b ->
  fst (update_translation_fields (fst (update_translation_fields db a sa ca)) b sb cb)
  = fst (update_translation_fields (fst (update_translation_fields db b sb cb)) a sa ca).
Proof.
  intros Hne. rewrite !update_translation_fields_db. simpl. f_equal.
  apply update_first_comm; try reflexivity.
  intros r Hr. apply Nat.eqb_eq in Hr. apply Nat.eqb_neq. congruence.
Qed.

(** What a worker does after another sub-job has been written is what it
    does before, followed by that write. *)
Lemma worker_after_write (nlp : Helpers.segmenter) (translate : translator)
    (completion : list nat) (db : Database) (translation_id other : nat)
    (status content : string) :
  other <> translation_id ->
  Tasks.process_individual_translation nlp translate completion
    (fst (update_translation_fields db other status content)) translation_id
  = option_map
      (fun out => (fst out, fst (update_translation_fields (snd out) other status content)))
      (Tasks.process_individual_translation nlp translate completion db translation_id).
Proof.
  intros Hne. unfold Tasks.process_individual_translation.
  rewrite get_translation_update_other by exact Hne.
  destruct (get_translation db translation_id) as [translation|]; [|reflexivity].
  assert (Hjobs : forall k,
            get_text (fst (update_translation_fields db other status content)) k
            = get_text db k)
    by (intros k; unfold get_text; rewrite texts_update_translation_fields; reflexivity).
  rewrite Hjobs.
  destruct (get_text db (Translation.text_id translation)) as [text|]; [|reflexivity].
  destruct (executor_map _ _ completion) as [[translated|e]|]; simpl; try reflexivity.
  rewrite (update_translation_fields_comm db other translation_id) by exact Hne.
  reflexivity.
Qed.
End Commute.

(** X13. Workers of different sub-jobs do not interfere: when a run of the
    worker of tasks.py for one sub-job is followed by a run for another
    sub-job, the two runs in the other order return the same results and
    end in the same database. *)
Theorem workers_commute (nlp : Helpers.segmenter) (translate translate' : translator)
    (completion completion' : list nat) (db db1 db2 : Crud.Database)
    (a b : nat) (ra rb : result unit) :
  a <> b ->
  Tasks.process_individual_translation nlp translate completion db a = Some (ra, db1) ->
  Tasks.process_individual_translation nlp translate' completion' db1 b = Some (rb, db2) ->
  exists db1',
    Tasks.process_individual_translation nlp translate' completion' db b = Some (rb, db1')
    /\ Tasks.process_individual_translation nlp translate completion db1' a
       = Some (ra, db2).
Proof.
  intros Hne Ha Hb.
  pose proof (tasks_writes_once nlp _ _ _ _ _ _ Ha) as Hwa.
  destruct ra as [[]|ea].
  - destruct Hwa as (ta & ca & Hta & ->).
    rewrite worker_after_write in Hb by exact Hne.
    destruct (Tasks.process_individual_translation nlp translate' completion' db b)
      as [[rb' db1']|] eqn:Hb'; [|discriminate].
    simpl in Hb. injection Hb as -> <-.
    exists db1'. split; [reflexivity|].
    pose proof (tasks_writes_once nlp _ _ _ _ _ _ Hb') as Hwb.
    destruct rb as [[]|eb].
    + destruct Hwb as (tb & cb & Htb & ->).
      rewrite worker_after_write by congruence. rewrite Ha. simpl.
      rewrite (update_translation_fields_comm db a b) by exact Hne. reflexivity.
    + subst db1'. exact Ha.
  - subst db1. exists db2. split; [exact Hb|].
    pose proof (tasks_writes_once nlp _ _ _ _ _ _ Hb) as Hwb.
    destruct rb as [[]|eb].
    + destruct Hwb as (tb & cb & Htb & ->).
      rewrite worker_after_write by congruence. rewrite Ha. reflexivity.
    + subst db2. exact Ha.
Qed.

Lemma workers_commute_witness :
  let db1 := fst (Crud.update_translation_fields submitted_db 1 "complete" "es:A. B.") in
  let db2 := fst (Crud.update_translation_fields db1 2 "complete" "fr:A. B.") in
  exists db1',
    Tasks.process_individual_translation sentences_by_line polyglot [0] submitted_db 2
      = Some (Ok tt, db1')
    /\ Tasks.process_individual_translation sentences_by_line polyglot [0] db1' 1
       = Some (Ok tt, db2).
Proof.
  intros db1 db2.
  apply (workers_commute sentences_by_line polyglot polyglot [0] [0] submitted_db db1 db2
           1 2 (Ok tt) (Ok tt)).
  - lia.
  - reflexivity.
  - reflexivity.
Defined.

Lemma collect_Raise {B : Type} (slots : list (option (result B))) (e : exn) :
  collect slots = Some (Raise e) -> exists j, slots !! j = Some (Some (Raise e)).
Proof.
  induction slots as [|[[b|e']|] slots IH]; simpl; intros H; try discriminate.
  - destruct (collect slots) as [[bs|e'']|]; try discriminate.
    injection H as ->. destruct IH as [j Hj]; [reflexivity|]. exists (S j). exact Hj.
  - injection H as ->. exists 0. reflexivity.
Qed.

Lemma executor_map_Raise {A B : Type} (f : A -> result B) (xs : list A)
    (completion : list nat) (e : exn) :
  executor_map f xs completion = Some (Raise e) -> exists x, x ∈ xs /\ f x = Raise e.
Proof.
  unfold executor_map. intros [j Hj]%collect_Raise.
  destruct (xs !! j) as [x|] eqn:Hx.
  - rewrite (run_calls_lookup f xs completion j x Hx) in Hj.
    exists x. split; [apply list_elem_of_lookup; eauto|].
    destruct (bool_decide _); congruence.
  - apply lookup_ge_None in Hx. apply lookup_lt_Some in Hj.
    unfold run_calls in Hj. rewrite fold_finish_call_length, length_replicate in Hj. lia.
Qed.

(** X14. The worker of tasks_async.py translates nothing: [translate] is
    not a coroutine function, so that for a job with at least one sentence
    whatever run of the worker returns has raised and written nothing, and
    has raised [TypeError] when the service answered every chunk. *)
Theorem async_worker_raises_TypeError (nlp : Helpers.segmenter) (translate : translator)
    (completion : list nat) (db : Crud.Database) (translation_id : nat)
    (translation : Translation.t) (text : OriginalText.t) (r : result unit)
    (db' : Crud.Database) :
  Crud.get_translation db translation_id = Some translation ->
  Crud.get_text db (Translation.text_id translation) = Some text ->
  nlp (OriginalText.text text) <> [] ->
  TasksAsync.process_individual_translation nlp translate completion db translation_id
    = Some (r, db') ->
  db' = db
  /\ (exists e, r = Raise e)
  /\ ((forall chunk, exists out,
         translate chunk (Translation.language translation) = Ok out) ->
      r = Raise TypeError).
Proof.
  intros Ht Htext Hsents Hrun.
  unfold TasksAsync.process_individual_translation in Hrun. rewrite Ht, Htext in Hrun.
  destruct (gather _ _ completion) as [[translated|e]|] eqn:E; try discriminate.
  - exfalso. apply executor_map_Ok in E.
    assert (Hcount : 1 <= length (Helpers.split_text_into_sentence_groups nlp
                                   (OriginalText.text text))).
    { unfold Helpers.split_text_into_sentence_groups.
      rewrite group_sentences_length by lia. apply Nat.div_le_lower_bound; [lia|].
      destruct (nlp (OriginalText.text text)); [congruence | simpl; lia]. }
    destruct E as [|chunk out chunks translated Hout _].
    + simpl in Hcount. lia.
    + unfold TasksAsync.await_str in Hout.
      destruct (translate chunk (Translation.language translation)); discriminate.
  - injection Hrun as <- <-. split; [reflexivity|]. split; [eauto|].
    intros Hanswers. apply executor_map_Raise in E as (chunk & _ & Hchunk).
    destruct (Hanswers chunk) as [out Hout]. rewrite Hout in Hchunk.
    simpl in Hchunk. congruence.
Qed.

Lemma async_worker_raises_TypeError_witness :
  let db := fst (Main.translate Crud.empty ["es"] "Hello.") in
  db = db
  /\ (exists e, Raise (A := unit) TypeError = Raise e)
  /\ ((forall chunk, exists out, polyglot chunk "es" = Ok out) ->
      Raise (A := unit) TypeError = Raise TypeError).
Proof.
  intros db.
  apply (async_worker_raises_TypeError sentences_by_line polyglot [0]
           db 1 (Translation.mk 1 1 "pending" "es" None)
           (OriginalText.mk 1 "Hello." "pending") (Raise TypeError) db).
  - reflexivity.
  - reflexivity.
  - discriminate.
  - reflexivity.
Defined.

(** ** tasks_async.py: the retry loop *)

(** X15. The first post that does not meet a caught failure decides the
    call: after [k] caught failures, with [k] below 42, an answer is
    returned and an exception that no clause catches is raised at once,
    after [k + 1] posts and [k] sleeps, with [42 - k] attempts left. *)
Theorem first_answer_decides (service : nat -> TasksAsync.response) (k : nat) :
  k < 42 ->
  (forall i, i < k -> TasksAsync.retryable (service i) = true) ->
  TasksAsync.retryable (service k) = false ->
  exists out st,
    TasksAsync.query_gpt_async 42 service = Some (out, st)
    /\ (forall content, service k = TasksAsync.Content content ->
                        out = TasksAsync.Return (Some content))
    /\ (service k = TasksAsync.OtherError -> out = TasksAsync.RaiseOther)
    /\ TasksAsync.attempts st = S k
    /\ TasksAsync.retries st = (42 - Z.of_nat k)%Z
    /\ TasksAsync.trace st
       = concat (replicate k [TasksAsync.Post 48; TasksAsync.Sleep 21])
         ++ [TasksAsync.Post 48].
Proof.
  intros Hk Hfail Hanswer.
  destruct (query_gpt_async_spec service)
    as (out & st & Hrun & Hatt & Htrace & Hcnt & Hprev & Hout).
  pose proof (failures_le service (TasksAsync.attempts st)) as Hle.
  assert (Ha : TasksAsync.attempts st = S k).
  { destruct (Nat.lt_trichotomy (TasksAsync.attempts st - 1) k) as [Hlt|[Heq|Hgt]].
    - exfalso.
      assert (Hr : TasksAsync.retryable (service (TasksAsync.attempts st - 1)) = true)
        by (apply Hfail; exact Hlt).
      destruct (service (TasksAsync.attempts st - 1)); try discriminate;
        destruct Hout as [_ Hzero]; lia.
    - lia.
    - exfalso. rewrite Hprev in Hanswer by lia. discriminate. }
  exists out, st. rewrite Ha in *. replace (S k - 1) with k in * by lia.
  split; [exact Hrun|].
  split; [intros content Hs; rewrite Hs in Hout; exact Hout|].
  split; [intros Hs; rewrite Hs in Hout; exact Hout|].
  split; [reflexivity|]. split; [|exact Htrace].
  rewrite Hcnt. simpl. rewrite Hanswer, (failures_all service k Hfail). lia.
Qed.

Lemma first_answer_decides_witness :
  let service := fun i => if Nat.ltb i 2 then TasksAsync.ReadTimeout
                          else TasksAsync.Content "Hola." in
  exists out st,
    TasksAsync.query_gpt_async 42 service = Some (out, st)
    /\ (forall content, service 2 = TasksAsync.Content content ->
                        out = TasksAsync.Return (Some content))
    /\ (service 2 = TasksAsync.OtherError -> out = TasksAsync.RaiseOther)
    /\ TasksAsync.attempts st = 3
    /\ TasksAsync.retries st = (42 - Z.of_nat 2)%Z
    /\ TasksAsync.trace st
       = concat (replicate 2 [TasksAsync.Post 48; TasksAsync.Sleep 21])
         ++ [TasksAsync.Post 48].
Proof.
  intros service. apply (first_answer_decides service 2).
  - lia.
  - intros i Hi. unfold service. destruct (Nat.ltb_spec i 2); [reflexivity | lia].
  - reflexivity.
Defined.



(** ** The orchestration: what every reachable state keeps *)

Section ReachableRows.
Import Crud Orchestration.
Variable w : worker.
Hypothesis Hw : writes_once w.

Lemma reachable_settled (s : system) :
  reachable w s -> Forall sub_job_settled (translations (db s)).
Proof using Hw.
  revert s. apply rtc_ind_r; [constructor|].
  intros s s' _ Hstep IH. step_cases Hstep; simpl in *.
  - destruct (translate_db' db text languages) as (_ & _ & Htrans).
    assert (Hdb : db' = fst (Main.translate db languages text))
      by (rewrite Htr; reflexivity).
    rewrite Hdb, Htrans. apply Forall_app. split; [exact IH|].
    apply Forall_forall. intros t [i Hi]%list_elem_of_lookup.
    rewrite list_lookup_imap in Hi. destruct (languages !! i); [|discriminate].
    injection Hi as <-. left. auto.
  - exact IH.
  - apply Hw in Hrun. destruct r as [[]|e]; [|subst db'; exact IH].
    destruct Hrun as (t & content & _ & ->).
    rewrite update_translation_fields_db. simpl.
    apply Forall_forall. intros t' [Hin|(r0 & _ & _ & ->)]%elem_of_update_first.
    + rewrite Forall_forall in IH. auto.
    + right. simpl. eauto.
  - exact IH.
Qed.

Lemma step_keeps_rows (s s' : system) : step w s s' -> keeps_rows (db s) (db s').
Proof using Hw.
  intros Hstep.
  assert (Hrefl : forall db0, keeps_rows db0 db0).
  { intros db0. split; intros i x Hi; exists x; auto. }
  step_cases Hstep; simpl in *.
  - destruct (translate_db' db text languages) as (_ & Htexts & Htrans).
    assert (Hdb : db' = fst (Main.translate db languages text))
      by (rewrite Htr; reflexivity).
    rewrite Hdb. split.
    + intros i job Hi. exists job. rewrite Htexts.
      split; [apply lookup_app_l_Some; exact Hi | auto].
    + intros i t Hi. exists t. rewrite Htrans.
      split; [apply lookup_app_l_Some; exact Hi | auto].
  - apply Hrefl.
  - apply Hw in Hrun. destruct r as [[]|e]; [|subst db'; apply Hrefl].
    destruct Hrun as (t & content & _ & ->).
    rewrite update_translation_fields_db. split; simpl.
    + intros i job Hi. exists job. auto.
    + intros i t0 Hi.
      destruct (update_first_lookup
                  (fun r => Nat.eqb (Translation.id r) translation_id')
                  (fun r => Translation.mk (Translation.id r) (Translation.text_id r)
                              "complete" (Translation.language r) (Some content))
                  (translations db) i) as [Hsame|(r0 & Hr0 & _ & Hupd)].
      * exists t0. rewrite Hsame. auto.
      * rewrite Hi in Hr0. injection Hr0 as <-. eexists. split; [exact Hupd|].
        simpl. auto.
  - split; simpl.
    + intros i job Hi.
      destruct (update_first_lookup
                  (fun r => Nat.eqb (OriginalText.id r) text_id')
                  (fun r => OriginalText.mk (OriginalText.id r) (OriginalText.text r)
                              "completed")
                  (texts db) i) as [Hsame|(r0 & Hr0 & _ & Hupd)].
      * exists job. rewrite Hsame. auto.
      * rewrite Hi in Hr0. injection Hr0 as <-. eexists. split; [exact Hupd|].
        simpl. auto.
    + intros i t Hi. exists t. auto.
Qed.

Lemma keeps_rows_trans (db1 db2 db3 : Database) :
  keeps_rows db1 db2 -> keeps_rows db2 db3 -> keeps_rows db1 db3.
Proof.
  intros [Hj12 Ht12] [Hj23 Ht23]. split.
  - intros i job Hi. destruct (Hj12 i job Hi) as (job2 & Hi2 & Hid & Htext & Hst).
    destruct (Hj23 i job2 Hi2) as (job3 & Hi3 & Hid' & Htext' & Hst').
    exists job3. repeat split; auto; congruence.
  - intros i t Hi. destruct (Ht12 i t Hi) as (t2 & Hi2 & Hid & Htid & Hlang & Hst).
    destruct (Ht23 i t2 Hi2) as (t3 & Hi3 & Hid' & Htid' & Hlang' & Hst').
    exists t3. repeat split; auto; congruence.
Qed.

Lemma steps_keep_rows (s s' : system) :
  rtc (step w) s s' -> keeps_rows (db s) (db s').
Proof using Hw.
  revert s'. apply rtc_ind_r.
  - split; intros i x Hi; exists x; auto.
  - intros s1 s2 _ Hstep IH. eapply keeps_rows_trans; [exact IH|].
    apply step_keeps_rows. exact Hstep.
Qed.
End ReachableRows.

(** X17. In every reachable state every sub-job is pending without content
    or complete with content, is the row that [get_translation] finds under
    its id, and belongs to a stored job. *)
Theorem sub_jobs_settled (nlp : Helpers.segmenter) (w : Orchestration.worker)
    (s : Orchestration.system) (t : Translation.t) :
  Orchestration.worker_of nlp w ->
  Orchestration.reachable w s ->
  t ∈ Crud.translations (Orchestration.db s) ->
  sub_job_settled t
  /\ Crud.get_translation (Orchestration.db s) (Translation.id t) = Some t
  /\ exists job, Crud.get_text (Orchestration.db s) (Translation.text_id t) = Some job.
Proof.
  intros Hwof Hreach Hin.
  pose proof (worker_of_writes_once nlp w Hwof) as Hw.
  pose proof (reachable_invariant w s Hw Hreach) as (Hwf & _ & _).
  pose proof (reachable_settled w Hw s Hreach) as Hall.
  rewrite Forall_forall in Hall.
  split; [auto|]. split; [apply wf_get_translation | apply wf_job_of_translation]; auto.
Qed.

Lemma sub_jobs_settled_witness :
  let t := Translation.mk 2 1 "complete" "fr" (Some "fr:A. B.") in
  sub_job_settled t
  /\ Crud.get_translation (Orchestration.db all_done) (Translation.id t) = Some t
  /\ exists job,
       Crud.get_text (Orchestration.db all_done) (Translation.text_id t) = Some job.
Proof.
  intros t.
  apply (sub_jobs_settled sentences_by_line line_worker all_done t).
  - apply Orchestration.worker_of_tasks.
  - apply all_done_reachable.
  - apply list_elem_of_In. right. left. reflexivity.
Defined.



Lemma french_worker_step : Orchestration.step line_worker spanish_failed one_failed.
Proof.
  exact (Orchestration.step_process_individual_translation line_worker
           submitted_db
           [Orchestration.mkRun 1
              (Orchestration.Waiting
                 [(1, Orchestration.Failed ServiceError);
                  (2, Orchestration.Dispatched)])]
           0 1 [(1, Orchestration.Failed ServiceError); (2, Orchestration.Dispatched)]
           1 2 no_spanish [0] (Ok tt)
           (fst (Crud.update_translation_fields submitted_db 2 "complete" "fr:A. B."))
           eq_refl eq_refl eq_refl).
Qed.

(** X19. No transition deletes, moves or re-keys a row: along every run of
    the orchestration a job keeps its id and its text, a sub-job keeps its
    id, its job and its language, a completed job stays completed and a
    complete sub-job stays complete. *)
Theorem rows_are_kept (nlp : Helpers.segmenter) (w : Orchestration.worker)
    (s s' : Orchestration.system) :
  Orchestration.worker_of nlp w ->
  rtc (Orchestration.step w) s s' ->
  keeps_rows (Orchestration.db s) (Orchestration.db s').
Proof.
  intros Hwof Hsteps. apply (steps_keep_rows w); [|exact Hsteps].
  eapply worker_of_writes_once; eauto.
Qed.

Lemma rows_are_kept_witness :
  keeps_rows (Orchestration.db spanish_failed) (Orchestration.db one_failed).
Proof.
  apply (rows_are_kept sentences_by_line line_worker spanish_failed one_failed).
  - apply Orchestration.worker_of_tasks.
  - apply rtc_once. apply french_worker_step.
Defined.

(** ** The orchestration: fan-out and completion *)





Lemma final_task_step : Orchestration.step line_worker both_succeeded all_done.
Proof.
  exact (Orchestration.step_update_task_status line_worker
           (Orchestration.db both_succeeded)
           [Orchestration.mkRun 1
              (Orchestration.Waiting
                 [(1, Orchestration.Succeeded); (2, Orchestration.Succeeded)])]
           0 1 [(1, Orchestration.Succeeded); (2, Orchestration.Succeeded)] eq_refl
           ltac:(repeat constructor)).
Qed.

(** X21. Only the final task completes a job: a transition after which a
    job that was pending is completed is taken by the run of that job, at
    its fan-in, with every one of its workers succeeded. *)
Theorem only_the_final_task_completes (nlp : Helpers.segmenter)
    (w : Orchestration.worker) (s s' : Orchestration.system) (text_id : nat)
    (job job' : OriginalText.t) :
  Orchestration.worker_of nlp w ->
  Orchestration.step w s s' ->
  Crud.get_text (Orchestration.db s) text_id = Some job ->
  OriginalText.status job = "pending" ->
  Crud.get_text (Orchestration.db s') text_id = Some job' ->
  OriginalText.status job' = "completed" ->
  exists k workers,
    Orchestration.runs s !! k
    = Some (Orchestration.mkRun text_id (Orchestration.Waiting workers))
    /\ Forall (fun w => snd w = Orchestration.Succeeded) workers.
Proof.
  intros Hwof. apply completed_only_by_final_task.
  eapply worker_of_writes_once; eauto.
Qed.

Lemma only_the_final_task_completes_witness :
  exists k workers,
    Orchestration.runs both_succeeded !! k
    = Some (Orchestration.mkRun 1 (Orchestration.Waiting workers))
    /\ Forall (fun w => snd w = Orchestration.Succeeded) workers.
Proof.
  apply (only_the_final_task_completes sentences_by_line line_worker both_succeeded
           all_done 1 (OriginalText.mk 1 "A. B." "pending")
           (OriginalText.mk 1 "A. B." "completed")).
  - apply Orchestration.worker_of_tasks.
  - apply final_task_step.
  - reflexivity.
  - reflexivity.
  - reflexivity.
  - reflexivity.
Defined.

(** Replacing a counted element by one that is not counted. *)
Lemma filter_insert_length {A : Type} (p : A -> bool) (l : list A) (i : nat) (x y : A) :
  l !! i = Some x -> p x = true -> p y = false ->
  length (List.filter p l) = S (length (List.filter p (<[i := y]> l))).
Proof.
  revert i. induction l as [|a l IH]; intros i Hi Hx Hy; [discriminate|].
  destruct i as [|i]; simpl in *.
  - injection Hi as ->. rewrite Hx, Hy. reflexivity.
  - destruct (p a); simpl; rewrite (IH i Hi Hx Hy); reflexivity.
Qed.

Section Completion.
Import Crud Orchestration.
Variable nlp : Helpers.segmenter.

Let w : worker := Tasks.process_individual_translation nlp.

(** A dispatched worker can succeed. *)
Lemma worker_can_succeed (db : Database) (runs : list run) (k text_id : nat)
    (workers : list (nat * worker_state)) (i translation_id : nat) :
  invariant (mkSystem db runs) ->
  runs !! k = Some (mkRun text_id (Waiting workers)) ->
  workers !! i = Some (translation_id, Dispatched) ->
  exists content,
    step w (mkSystem db runs)
      (mkSystem (fst (update_translation_fields db translation_id "complete" content))
         (<[k := mkRun text_id
                   (Waiting (<[i := (translation_id, Succeeded)]> workers))]> runs)).
Proof.
  intros Hinv Hk Hi. pose proof Hinv as (Hwf & _ & Hruns). simpl in *.
  destruct (Hruns k _ Hk) as [_ (_ & Hworkers & _)]. simpl in Hworkers.
  assert (Hin : translation_id ∈ map fst workers).
  { apply list_elem_of_In, in_map_iff. exists (translation_id, Dispatched).
    split; [reflexivity|]. apply list_elem_of_In, list_elem_of_lookup. eauto. }
  rewrite Hworkers in Hin. apply list_elem_of_In, in_map_iff in Hin as (t0 & Hid & Hin).
  apply filter_In in Hin as [Hin _]. apply list_elem_of_In in Hin.
  pose proof (wf_get_translation db Hwf t0 Hin) as Hget. rewrite Hid in Hget.
  destruct (wf_job_of_translation db Hwf t0 Hin) as [job Hjob].
  destruct (answers_all (fun chunk => polyglot chunk (Translation.language t0))
              (Helpers.split_text_into_sentence_groups nlp (OriginalText.text job)))
    as [translated Hok]; [intros chunk; unfold polyglot; eauto|].
  exists (join " " translated).
  apply (step_process_individual_translation w db runs k text_id workers i
           translation_id polyglot
           (seq 0 (length (Helpers.split_text_into_sentence_groups nlp
                             (OriginalText.text job))))
           (Ok tt)); [exact Hk | exact Hi |].
  apply (worker_succeeds nlp polyglot _ db translation_id t0 job translated Hget Hjob Hok).
  intros j Hj. apply list_elem_of_In, in_seq. lia.
Qed.

(** A fan-in without a failed worker can be passed. *)
Lemma fan_in_can_succeed (n : nat) :
  forall (s : system) (k text_id : nat) (workers : list (nat * worker_state)),
    length (List.filter running workers) = n ->
    reachable w s ->
    runs s !! k = Some (mkRun text_id (Waiting workers)) ->
    Forall (fun ws => forall e, snd ws <> Failed e) workers ->
    exists s' workers',
      rtc (step w) s s'
      /\ runs s' !! k = Some (mkRun text_id (Waiting workers'))
      /\ Forall (fun ws => snd ws = Succeeded) workers'.
Proof.
  induction n as [|n IH]; intros s k text_id workers Hn Hreach Hk Hnofail.
  - exists s, workers. split; [reflexivity|]. split; [exact Hk|].
    apply Forall_forall. intros [id st] Hin.
    rewrite Forall_forall in Hnofail. specialize (Hnofail _ Hin). simpl in *.
    destruct st as [| |e]; [|reflexivity|exfalso; eapply Hnofail; reflexivity].
    exfalso. apply length_zero_iff_nil in Hn.
    assert (Hf : In (id, Dispatched) (List.filter running workers))
      by (apply filter_In; split; [apply list_elem_of_In; exact Hin | reflexivity]).
    rewrite Hn in Hf. exact Hf.
  - destruct (List.filter running workers) as [|[id st] rest] eqn:Hf; [discriminate|].
    assert (Hin : In (id, st) (List.filter running workers)) by (rewrite Hf; left; reflexivity).
    apply filter_In in Hin as [Hin Hrunning].
    destruct st; try discriminate.
    apply list_elem_of_In, list_elem_of_lookup in Hin as [i Hi].
    pose proof (reachable_invariant w s (tasks_writes_once nlp) Hreach) as Hinv.
    destruct s as [db runs]. simpl in Hk.
    destruct (worker_can_succeed db runs k text_id workers i id Hinv Hk Hi)
      as [content Hstep].
    match type of Hstep with step _ _ ?t => set (s1 := t) in * end.
    destruct (IH s1 k text_id (<[i := (id, Succeeded)]> workers))
      as (s' & workers' & Hrtc & Hk' & Hall).
    + pose proof (filter_insert_length running workers i (id, Dispatched)
                    (id, Succeeded) Hi eq_refl eq_refl) as Hcount.
      rewrite Hf in Hcount. simpl in Hcount, Hn. lia.
    + eapply rtc_r; [exact Hreach | exact Hstep].
    + simpl. apply list_lookup_insert_eq. eapply lookup_lt_Some; eauto.
    + apply Forall_forall. intros ws [j Hj]%list_elem_of_lookup.
      destruct (decide (i = j)) as [<-|Hne].
      * rewrite list_lookup_insert_eq in Hj by (eapply lookup_lt_Some; eauto).
        injection Hj as <-. discriminate.
      * rewrite list_lookup_insert_ne in Hj by exact Hne.
        rewrite Forall_forall in Hnofail. apply Hnofail.
        apply list_elem_of_lookup. eauto.
    + exists s', workers'. split; [|auto].
      eapply rtc_l; [exact Hstep | exact Hrtc].
Qed.
End Completion.

Lemma submitted_reachable : Orchestration.reachable line_worker submitted.
Proof.
  apply rtc_once.
  exact (Orchestration.step_translate line_worker Crud.empty []
           ["es"; "fr"] "A. B." submitted_db 1 eq_refl).
Qed.

(** X22. With the worker of tasks.py, a job whose run is not finalized and
    has no failed worker can still complete: some run of the system
    from that state ends in a state where the run is finalized and the job
    is [completed]. *)
Theorem unfailed_job_can_complete (nlp : Helpers.segmenter) (s : Orchestration.system)
    (k text_id : nat) (st : Orchestration.run_state) :
  Orchestration.reachable (Tasks.process_individual_translation nlp) s ->
  Orchestration.runs s !! k = Some (Orchestration.mkRun text_id st) ->
  unfailed st ->
  exists s' job,
    rtc (Orchestration.step (Tasks.process_individual_translation nlp)) s s'
    /\ Orchestration.runs s' !! k
       = Some (Orchestration.mkRun text_id Orchestration.Finalized)
    /\ Crud.get_text (Orchestration.db s') text_id = Some job
    /\ OriginalText.status job = "completed".
Proof.
  set (w := Tasks.process_individual_translation nlp).
  assert (Hwaiting : forall s1 workers,
            Orchestration.reachable w s1 ->
            Orchestration.runs s1 !! k
            = Some (Orchestration.mkRun text_id (Orchestration.Waiting workers)) ->
            Forall (fun ws => forall e, snd ws <> Orchestration.Failed e) workers ->
            exists s' job,
              rtc (Orchestration.step w) s1 s'
              /\ Orchestration.runs s' !! k
                 = Some (Orchestration.mkRun text_id Orchestration.Finalized)
              /\ Crud.get_text (Orchestration.db s') text_id = Some job
              /\ OriginalText.status job = "completed").
  { intros s1 workers Hreach Hk Hnofail.
    destruct (fan_in_can_succeed nlp _ s1 k text_id workers eq_refl Hreach Hk Hnofail)
      as (s2 & workers' & Hrtc & Hk2 & Hall).
    assert (Hreach2 : Orchestration.reachable w s2) by (unfold Orchestration.reachable; etrans; eauto).
    pose proof (reachable_invariant w s2 (tasks_writes_once nlp) Hreach2) as Hinv.
    destruct (unfinalized_job_pending s2 k text_id _ Hinv Hk2)
      as (-> & job & Hjob & _ & _); [discriminate|].
    destruct s2 as [db2 runs2]. simpl in *.
    eexists (Orchestration.mkSystem (Tasks.update_task_status db2 (S k))
               (<[k := Orchestration.mkRun (S k) Orchestration.Finalized]> runs2)), _.
    split; [eapply rtc_r; [exact Hrtc|]|].
    { eapply Orchestration.step_update_task_status; eauto. }
    simpl. split; [apply list_lookup_insert_eq; eapply lookup_lt_Some; eauto|].
    split; [apply update_task_status_completed; [apply Hinv | exact Hjob] | reflexivity]. }
  intros Hreach Hk Hst. destruct st as [|workers|]; [|eauto|destruct Hst].
  destruct s as [db runs]. simpl in Hk.
  set (s1 := Orchestration.mkSystem db
               (<[k := Orchestration.mkRun text_id
                         (Orchestration.Waiting
                            (Orchestration.dispatch
                               (Crud.get_translations_for_text db text_id)))]> runs)).
  assert (Hstep : Orchestration.step w (Orchestration.mkSystem db runs) s1)
    by (apply Orchestration.step_process_translation; exact Hk).
  destruct (Hwaiting s1 (Orchestration.dispatch (Crud.get_translations_for_text db text_id)))
    as (s' & job & Hrtc & Hfin & Hjob & Hstatus).
  - eapply rtc_r; eauto.
  - simpl. apply list_lookup_insert_eq. eapply lookup_lt_Some; eauto.
  - apply Forall_forall. intros ws Hin.
    apply list_elem_of_In, in_map_iff in Hin as (t & <- & _). discriminate.
  - exists s', job. split; [eapply rtc_l; eauto | auto].
Qed.

Lemma unfailed_job_can_complete_witness :
  exists s' job,
    rtc (Orchestration.step (Tasks.process_individual_translation sentences_by_line))
      submitted s'
    /\ Orchestration.runs s' !! 0
       = Some (Orchestration.mkRun 1 Orchestration.Finalized)
    /\ Crud.get_text (Orchestration.db s') 1 = Some job
    /\ OriginalText.status job = "completed".
Proof.
  apply (unfailed_job_can_complete sentences_by_line submitted 0 1 Orchestration.Queued).
  - apply submitted_reachable.
  - reflexivity.
  - exact I.
Defined.
